(** * postMessage transport core of the PebbleKit JS message wrapper

    A shallow embedding of the JavaScript module that layers the chunked
    JSON [postMessage] channel over the app-message transport: the listener
    registry, the [Sender] (dual-priority queue, chunker, retry), the
    [ChunkReceiver] (reassembly) and the session control state machine.

    The module is a closure over a handful of mutable objects ([_out], [_in],
    [_control], [EVENTS]).  They are gathered here in one record, [World],
    and every JavaScript function becomes a computation in a state and
    exception monad over it.  What the module does to its environment
    (calls of [__Pebble.sendAppMessage], [setTimeout], [console.error], the
    listeners it invokes) is appended to the [trace] of the world.

    [POSTMESSAGE_DEBUG] is [false], so [debugLog] prints nothing and its
    calls are left out; the one argument of a [debugLog] whose evaluation
    can throw, in [sendObject], is kept.  Numbers are integers ([Z]), and
    [NaN] where a string of the transport is read as a number; the byte
    arrays of the transport are lists of [byte], its strings are [string]s,
    one character per code unit. *)

From stdpp Require Import base option list strings gmap pretty.
From Stdlib Require Import ZArith Lia.
From Stdlib.Strings Require Import Byte Ascii.

#[local] Set Warnings "-register-all".
Local Open Scope Z_scope.

(** ** JavaScript primitives *)

(** [ToInt32]: the wrap-around every bitwise operator applies to its operands. *)
Definition ToInt32 (z : Z) : Z := (z + 2 ^ 31) mod 2 ^ 32 - 2 ^ 31.

(** [a << b], [a >> b], [a & b], [a | b] and [~a] on numbers. *)
Definition js_shl (a b : Z) : Z := ToInt32 (Z.shiftl (ToInt32 a) (Z.land b 31)).
Definition js_sar (a b : Z) : Z := Z.shiftr (ToInt32 a) (Z.land b 31).
Definition js_and (a b : Z) : Z := Z.land (ToInt32 a) (ToInt32 b).
Definition js_or (a b : Z) : Z := Z.lor (ToInt32 a) (ToInt32 b).
Definition js_not (a : Z) : Z := Z.lnot (ToInt32 a).

(** Storing into a [Uint8Array] keeps the low eight bits. *)
Definition ToUint8 (z : Z) : Z := z mod 256.

#[global] Instance byte_eq_dec : EqDecision byte := Byte.byte_eq_dec.

Definition byte_to_Z (b : byte) : Z := Z.of_N (Byte.to_N b).

(** The numbers the module meets: integers, and [NaN]. *)
Inductive jsnumber : Type :=
| NaN
| Number (z : Z).

#[global] Instance jsnumber_eq_dec : EqDecision jsnumber.
Proof. solve_decision. Defined.

(** [Math.min(a, b)], [a > b] and [a < b] on numbers: a comparison with
    [NaN] is false, a minimum with [NaN] is [NaN]. *)
Definition Math_min (a b : jsnumber) : jsnumber :=
  match a, b with
  | Number x, Number y => Number (Z.min x y)
  | _, _ => NaN
  end.

Definition js_gt (a b : jsnumber) : bool :=
  match a, b with
  | Number x, Number y => bool_decide (x > y)
  | _, _ => false
  end.

Definition js_lt (a b : jsnumber) : bool :=
  match a, b with
  | Number x, Number y => bool_decide (x < y)
  | _, _ => false
  end.

(** What [data[i]] gives: [undefined], a number (of an array) or a string of
    one character (of a string). *)
Inductive Elem : Type :=
| Undefined
| Num (n : Z)
| Char (c : Ascii.ascii).

#[global] Instance Elem_eq_dec : EqDecision Elem.
Proof. solve_decision. Defined.

Definition char_code (c : Ascii.ascii) : Z := Z.of_nat (Ascii.nat_of_ascii c).

(** The characters [ToNumber] skips in a string: tab, line feed, vertical
    tab, form feed, carriage return, space and no-break space. *)
Definition StrWhiteSpaceChar (c : Ascii.ascii) : bool :=
  bool_decide (char_code c ∈ [9; 10; 11; 12; 13; 32; 160]).

(** [ToNumber]: [undefined] is [NaN]; a string of one character is the
    digit it holds, 0 when the character is white space, and [NaN]
    otherwise. *)
Definition ToNumber (e : Elem) : jsnumber :=
  match e with
  | Undefined => NaN
  | Num n => Number n
  | Char c =>
      if bool_decide (48 ≤ char_code c ≤ 57) then Number (char_code c - 48)
      else if StrWhiteSpaceChar c then Number 0
      else NaN
  end.

(** A value as an operand of a bitwise operator, and as the argument of
    [String.fromCharCode]: its number, with [NaN] counting as 0. *)
Definition operand (e : Elem) : Z :=
  match ToNumber e with
  | NaN => 0
  | Number z => z
  end.

(** [Array.prototype.slice(start, end)], relative indices included. *)
Definition js_slice {A} (a : list A) (start_ end_ : Z) : list A :=
  let len := Z.of_nat (length a) in
  let k := if start_ <? 0 then Z.max (len + start_) 0 else Z.min start_ len in
  let final := if end_ <? 0 then Z.max (len + end_) 0 else Z.min end_ len in
  take (Z.to_nat (final - k)) (drop (Z.to_nat k) a).

(** The double quote, for the texts that contain one. *)
Definition dquote : string := String (Ascii.ascii_of_nat 34) EmptyString.

Definition string_of_bool (b : bool) : string := if b then "true" else "false".

(** ** Values *)

(** JSON-like values: what the application posts and what listeners receive. *)
Inductive jsval : Type :=
| JUndefined
| JNull
| JBool (b : bool)
| JNumber (n : Z)
| JString (s : string)
| JArray (items : list jsval)
| JObject (fields : list (string * jsval)).

(** A value handed to a listener as [msg.data]: the field is left out when
    the value is [undefined]. *)
Definition defined (v : jsval) : option jsval :=
  match v with JUndefined => None | _ => Some v end.

(** A value passed as a listener: a function (known by its identity) or
    anything else. *)
Inductive Handler : Type :=
| HFunction (id : nat)
| HValue (v : jsval).

Definition typeof (h : Handler) : string :=
  match h with
  | HFunction _ => "function"
  | HValue JUndefined => "undefined"
  | HValue (JBool _) => "boolean"
  | HValue (JNumber _) => "number"
  | HValue (JString _) => "string"
  | HValue _ => "object"
  end.

(** Exceptions: [Error(m)], [TypeError(m)], [SyntaxError(m)]. *)
Inductive Exception : Type :=
| JSError (name message : string).

Definition exn_to_string (e : Exception) : string :=
  match e with JSError n m => n +:+ ": " +:+ m end.

(** The functions of the host the module calls and does not define:
    [JSON.stringify], [JSON.parse] and the [utf8] package. *)
Inductive Stringified : Type :=
| StringifyText (s : string)
| StringifyUndefined
| StringifyThrows (e : Exception).

Class Runtime : Type := {
  JSON_stringify : jsval → Stringified;
  JSON_parse : string → Exception + jsval;
  utf8_encode : string → list byte;
  utf8_decode : list byte → Exception + string;
}.

(** ** Wire data *)

Definition ControlKeyResetRequest : string := "ControlKeyResetRequest".
Definition ControlKeyResetComplete : string := "ControlKeyResetComplete".
Definition ControlKeyChunk : string := "ControlKeyChunk".
Definition ControlKeyUnsupportedError : string := "ControlKeyUnsupportedError".

(** Values of the dictionaries the app-message transport delivers: an
    integer, a byte array or a string. *)
Inductive InValue : Type :=
| InInt (n : Z)
| InBytes (bytes : list byte)
| InString (s : string).

(** Values of the dictionaries the module builds: a number or an array of
    numbers. *)
Inductive OutValue : Type :=
| OutInt (n : Z)
| OutArray (a : list Z).

(** [data[i]]: [undefined] on a number and past the end of an array or of
    a string. *)
Definition elem (data : InValue) (i : nat) : Elem :=
  match data with
  | InInt _ => Undefined
  | InBytes a => from_option (λ b, Num (byte_to_Z b)) Undefined (a !! i)
  | InString s => from_option Char Undefined (String.list_ascii_of_string s !! i)
  end.

Abbreviation Payload := (gmap string InValue).
Abbreviation Message := (gmap string OutValue).

(** [key in payload] *)
Definition has_key (key : string) (payload : Payload) : bool :=
  bool_decide (is_Some (payload !! key)).

(** The payload of a chunk, [data.slice(4)]: bytes of a byte array, or the
    rest of a string. *)
Inductive ChunkData : Type :=
| Bytes (bytes : list byte)
| Text (s : string).

(** [data.length] *)
Definition data_length (d : ChunkData) : nat :=
  match d with
  | Bytes b => length b
  | Text s => String.length s
  end.

(** The byte with the value of a digit, for the characters of a string. *)
Definition digit_byte (c : Ascii.ascii) : byte :=
  default x00 (Byte.of_N (Z.to_N (operand (Char c)))).

(** [String.fromCharCode(data[i])], for each [i]: the byte itself, from a
    byte array; from a string, the character of the code [ToNumber] makes
    of each character. *)
Definition data_codes (d : ChunkData) : list byte :=
  match d with
  | Bytes b => b
  | Text s => digit_byte <$> String.list_ascii_of_string s
  end.

(** [data[data.length - 1] === 0]: never so for a string. *)
Definition zero_terminated (d : ChunkData) : bool :=
  match d with
  | Bytes b => bool_decide (last b = Some x00)
  | Text _ => false
  end.

(** The object [_unpackChunk] builds: a first chunk carries
    [total_size_bytes], the others [offset_bytes]. *)
Inductive Chunk : Type :=
| FirstChunk (total_size_bytes : Z) (data : ChunkData)
| NextChunk (offset_bytes : Z) (data : ChunkData).

Definition chunk_is_first (c : Chunk) : bool :=
  match c with FirstChunk _ _ => true | NextChunk _ _ => false end.

Definition chunk_data (c : Chunk) : ChunkData :=
  match c with FirstChunk _ d => d | NextChunk _ d => d end.

Record RemoteProtocol : Type := {
  min_version : Elem;
  max_version : Elem;
  max_tx_chunk_size : Z;
  max_rx_chunk_size : Z;
}.

(** ** State *)

Inductive ControlState : Type :=
| ControlStateDisconnected
| ControlStateAwaitingResetCompleteRemoteInitiated
| ControlStateAwaitingResetCompleteLocalInitiated
| ControlStateSessionOpen.

#[global] Instance ControlState_eq_dec : EqDecision ControlState.
Proof. solve_decision. Defined.

Record Protocol : Type := {
  version : jsnumber;
  tx_chunk_size : Z;
  rx_chunk_size : Z;
}.

Record Control : Type := {
  state : ControlState;
  protocol : Protocol;
}.

Inductive MessageType : Type :=
| MsgControl
| MsgObject.

#[global] Instance MessageType_eq_dec : EqDecision MessageType.
Proof. solve_decision. Defined.

Record DataObject : Type := {
  obj : jsval;
  data : list byte;
  json : string;
}.

Record Sender : Type := {
  controlQueue : list Message;
  objectQueue : list DataObject;
  _currentMessageType : option MessageType;
  _failureCount : Z;
  _offsetBytes : Z;
  _chunkPayloadSize : Z;
}.

Record ChunkReceiver : Type := {
  utf8_json_string : list byte;
  total_size_bytes : Z;
  received_size_bytes : Z;
}.

(** [createHandlersList]: the registered functions and the cursor of the
    iterator. *)
Record HandlersList : Type := {
  pos : nat;
  handlers : list nat;
}.

(** What the module does to the outside. *)
Inductive Effect : Type :=
| sendAppMessage (msg : option Message) (callbacks : MessageType)
| setTimeout (retry : MessageType) (ms : Z)
| dispatchEvent (event_name : string) (callback_data : option jsval)
| callHandler (handler : Handler) (event_name : string) (callback_data : option jsval)
| console_error (text : string)
| native_addEventListener (event_name : string) (handler : Handler)
| native_removeEventListener (event_name : string) (handler : Handler)
| uncaught (e : Exception).

Record World : Type := {
  _out : Sender;
  _in : ChunkReceiver;
  _control : Control;
  EVENTS : gmap string HandlersList;
  trace : list Effect;
}.

(** The local capabilities. *)
Module PROTOCOL.
Definition min_version : Z := 1.
Definition max_version : Z := 1.
Definition max_tx_chunk_size : Z := 1000.
Definition max_rx_chunk_size : Z := 1000.
End PROTOCOL.

Definition no_protocol : Protocol :=
  {| version := Number 0; tx_chunk_size := 0; rx_chunk_size := 0 |}.

(** The module right after it is loaded. *)
Definition initial : World :=
  {| _out := {| controlQueue := []; objectQueue := []; _currentMessageType := None;
                _failureCount := 0; _offsetBytes := 0; _chunkPayloadSize := 0 |};
     _in := {| utf8_json_string := []; total_size_bytes := 0; received_size_bytes := 0 |};
     _control := {| state := ControlStateDisconnected; protocol := no_protocol |};
     EVENTS := ∅;
     trace := [] |}.

(** Field updates. *)
Definition upd_out (f : Sender → Sender) (w : World) : World :=
  {| _out := f (_out w); _in := _in w; _control := _control w;
     EVENTS := EVENTS w; trace := trace w |}.
Definition upd_in (f : ChunkReceiver → ChunkReceiver) (w : World) : World :=
  {| _out := _out w; _in := f (_in w); _control := _control w;
     EVENTS := EVENTS w; trace := trace w |}.
Definition upd_control (f : Control → Control) (w : World) : World :=
  {| _out := _out w; _in := _in w; _control := f (_control w);
     EVENTS := EVENTS w; trace := trace w |}.
Definition upd_EVENTS (f : gmap string HandlersList → gmap string HandlersList)
    (w : World) : World :=
  {| _out := _out w; _in := _in w; _control := _control w;
     EVENTS := f (EVENTS w); trace := trace w |}.
Definition upd_trace (f : list Effect → list Effect) (w : World) : World :=
  {| _out := _out w; _in := _in w; _control := _control w;
     EVENTS := EVENTS w; trace := f (trace w) |}.

Definition set_controlQueue (q : list Message) (s : Sender) : Sender :=
  {| controlQueue := q; objectQueue := objectQueue s;
     _currentMessageType := _currentMessageType s; _failureCount := _failureCount s;
     _offsetBytes := _offsetBytes s; _chunkPayloadSize := _chunkPayloadSize s |}.
Definition set_objectQueue (q : list DataObject) (s : Sender) : Sender :=
  {| controlQueue := controlQueue s; objectQueue := q;
     _currentMessageType := _currentMessageType s; _failureCount := _failureCount s;
     _offsetBytes := _offsetBytes s; _chunkPayloadSize := _chunkPayloadSize s |}.
Definition set_currentMessageType (t : option MessageType) (s : Sender) : Sender :=
  {| controlQueue := controlQueue s; objectQueue := objectQueue s;
     _currentMessageType := t; _failureCount := _failureCount s;
     _offsetBytes := _offsetBytes s; _chunkPayloadSize := _chunkPayloadSize s |}.
Definition set_failureCount (n : Z) (s : Sender) : Sender :=
  {| controlQueue := controlQueue s; objectQueue := objectQueue s;
     _currentMessageType := _currentMessageType s; _failureCount := n;
     _offsetBytes := _offsetBytes s; _chunkPayloadSize := _chunkPayloadSize s |}.
Definition set_offsetBytes (n : Z) (s : Sender) : Sender :=
  {| controlQueue := controlQueue s; objectQueue := objectQueue s;
     _currentMessageType := _currentMessageType s; _failureCount := _failureCount s;
     _offsetBytes := n; _chunkPayloadSize := _chunkPayloadSize s |}.
Definition set_chunkPayloadSize (n : Z) (s : Sender) : Sender :=
  {| controlQueue := controlQueue s; objectQueue := objectQueue s;
     _currentMessageType := _currentMessageType s; _failureCount := _failureCount s;
     _offsetBytes := _offsetBytes s; _chunkPayloadSize := n |}.

(** ** The monad: state over [World], exceptions, and fuel for [_sendNext] *)

Inductive Completion (A : Type) : Type :=
| Normal (a : A)
| Throw (e : Exception)
| Exhausted.
Arguments Normal {A} a.
Arguments Throw {A} e.
Arguments Exhausted {A}.

Definition M (A : Type) : Type := World → Completion A * World.

#[global] Instance M_ret : MRet M := λ A a w, (Normal a, w).
#[global] Instance M_bind : MBind M := λ A B f m w,
  match m w with
  | (Normal a, w') => f a w'
  | (Throw e, w') => (Throw e, w')
  | (Exhausted, w') => (Exhausted, w')
  end.

Definition throw {A} (e : Exception) : M A := λ w, (Throw e, w).
Definition exhausted {A} : M A := λ w, (Exhausted, w).
Definition gets {A} (f : World → A) : M A := λ w, (Normal (f w), w).
Definition modify (f : World → World) : M unit := λ w, (Normal tt, f w).
Definition effect (e : Effect) : M unit := modify (upd_trace (λ t, t ++ [e])).

(** A call of a host function that may throw. *)
Definition call {A} (r : Exception + A) : M A :=
  match r with inl e => throw e | inr a => mret a end.

(** The world a computation leaves. *)
Definition exec {A} (m : M A) (w : World) : World := (m w).2.

(** ** Listener registry *)

Definition createHandlersList : HandlersList := {| pos := 0; handlers := [] |}.

Module HandlersList.
Definition add (handler : nat) (l : HandlersList) : HandlersList :=
  {| pos := pos l; handlers := handlers l ++ [handler] |}.

Definition clear (l : HandlersList) : HandlersList :=
  {| pos := 0; handlers := [] |}.

Definition isEmpty (l : HandlersList) : bool :=
  bool_decide (length (handlers l) = 0%nat).

(** [handlers.indexOf(handler)]: only a function can be found, the list
    holds nothing else. *)
Definition indexOf (handler : Handler) (l : HandlersList) : option nat :=
  match handler with
  | HFunction id => fst <$> list_find (λ h, h = id) (handlers l)
  | HValue _ => None
  end.

Definition remove (handler : Handler) (l : HandlersList) : HandlersList :=
  match indexOf handler l with
  | None => l
  | Some idx =>
      {| pos := if bool_decide (idx < pos l)%nat then Nat.max (pos l - 1) 0 else pos l;
         handlers := delete idx (handlers l) |}
  end.

(** [newIterator()] resets the cursor; [next()] returns the handler under
    it and advances, or [undefined] at the end. *)
Definition newIterator (l : HandlersList) : HandlersList :=
  {| pos := 0; handlers := handlers l |}.

Definition next (l : HandlersList) : option nat * HandlersList :=
  if bool_decide (pos l < length (handlers l))%nat
  then (handlers l !! pos l, {| pos := S (pos l); handlers := handlers l |})
  else (None, l).
End HandlersList.

(** [_callHandler] hands the event to a function of the application.  The
    application's code is outside this module: the call is recorded in the
    trace, and the function is taken to return normally without calling
    [Pebble.on], [Pebble.off] or [Pebble.postMessage] while it runs.  A
    listener that throws, or that calls back into the module during a
    dispatch, is not covered by this development. *)
Definition _callHandler (handler : Handler) (event_name : string)
    (callback_data : option jsval) : M unit :=
  effect (callHandler handler event_name callback_data).

(** The loop [while ((handler = it.next())) _callHandler(...)]: with
    listeners that do not call back, [n] rounds, [n] the number of
    registered handlers, reach the end of the list. *)
Fixpoint call_each (n : nat) (event_name : string) (callback_data : option jsval)
    : M unit :=
  match n with
  | O => mret tt
  | S n' =>
      l ← gets (λ w, default createHandlersList (EVENTS w !! event_name));
      let '(handler, l') := HandlersList.next l in
      modify (upd_EVENTS (<[event_name := l']>));;
      match handler with
      | None => mret tt
      | Some id =>
          _callHandler (HFunction id) event_name callback_data;;
          call_each n' event_name callback_data
      end
  end.

(** Every call is recorded as a [dispatchEvent], whether or not a listener
    is registered. *)
Definition _callHandlersForEvent (event_name : string) (callback_data : option jsval)
    : M unit :=
  effect (dispatchEvent event_name callback_data);;
  known ← gets (λ w, EVENTS w !! event_name);
  match known with
  | None => mret tt
  | Some l =>
      modify (upd_EVENTS (<[event_name := HandlersList.newIterator l]>));;
      call_each (length (handlers l)) event_name callback_data
  end.

Definition _isPostMessageEvent (event_name : string) : bool :=
  bool_decide (event_name ∈ ["message"; "postmessageerror";
                             "postmessageconnected"; "postmessagedisconnected"]).

(** [_control.isSessionOpen()] *)
Definition isSessionOpen : M bool :=
  gets (λ w, bool_decide (state (_control w) = ControlStateSessionOpen)).

Section Core.
Context `{Runtime}.

Definition _scheduleAsyncPostMessageError (jsonString reason : string) : M unit :=
  parsed ← call (JSON_parse jsonString);
  _callHandlersForEvent "postmessageerror" (defined parsed);;
  effect (console_error ("postMessage() failed. Reason: " +:+ reason)).

(** ** Sender *)

Definition _resetCurrent : M unit :=
  modify (upd_out (λ s,
    set_chunkPayloadSize 0 (set_offsetBytes 0 (set_failureCount 0
      (set_currentMessageType None s))))).

Definition _getNextMessageType : M (option MessageType) :=
  s ← gets _out;
  if bool_decide (0 < length (controlQueue s))%nat then mret (Some MsgControl)
  else if bool_decide (0 < length (objectQueue s))%nat then mret (Some MsgObject)
  else mret None.

Definition _trySendNextControl : M unit :=
  msg ← gets (λ w, head (controlQueue (_out w)));
  effect (sendAppMessage msg MsgControl).

Definition _completeObject (failureReasonOrUndefined : option string) : M unit :=
  completeObject ← gets (λ w, head (objectQueue (_out w)));
  modify (upd_out (λ s, set_objectQueue (tail (objectQueue s)) s));;
  _resetCurrent;;
  match failureReasonOrUndefined with
  | None => mret tt
  | Some reason =>
      match completeObject with
      | None => throw (JSError "TypeError" "Cannot read property 'json' of undefined")
      | Some o => _scheduleAsyncPostMessageError (json o) reason
      end
  end.

(** The chunk handed to the transport: the four header bytes, then the
    payload. *)
Definition chunk_header (n : Z) (isFirst : bool) : list Z :=
  let isFirstBit := if isFirst then js_shl 1 7 else 0 in
  [ js_and n 255;
    js_and (js_sar n 8) 255;
    js_and (js_sar n 16) 255;
    js_or (js_and (js_sar n 24) (js_not (js_shl 1 7))) isFirstBit ].

(** [_chunkFailure] and [_trySendNextChunk] call [_sendNext], which calls
    [_trySendNextChunk]: they take it as an argument, and [_sendNext_] ties
    the knot with a bound on the nesting. *)
Definition _chunkFailure_ (_sendNext : M unit) (e : string) : M unit :=
  modify (upd_out (λ s, set_failureCount (_failureCount s + 1) s));;
  count ← gets (λ w, _failureCount (_out w));
  let willRetry := bool_decide (count ≤ 3) in
  effect (console_error ("Chunk failed to send (willRetry=" +:+
                         string_of_bool willRetry +:+ "): " +:+ e));;
  if willRetry then effect (setTimeout MsgObject 1000)
  else
    _completeObject (Some "Too many failed transfer attempts");;
    _sendNext.

Definition _trySendNextChunk_ (_sendNext : M unit) : M unit :=
  type ← _getNextMessageType;
  if bool_decide (type ≠ Some MsgObject) then
    _resetCurrent;;
    _sendNext
  else
    open ← isSessionOpen;
    if negb open then
      modify (upd_out (set_offsetBytes 0));;
      _chunkFailure_ _sendNext
        ("Session not open. Hint: check out the " +:+ dquote +:+
         "postmessageconnected" +:+ dquote +:+ " event.")
    else
      first ← gets (λ w, head (objectQueue (_out w)));
      match first with
      | None => throw (JSError "TypeError" "Cannot read property 'data' of undefined")
      | Some o =>
          offset ← gets (λ w, _offsetBytes (_out w));
          tx ← gets (λ w, tx_chunk_size (protocol (_control w)));
          let sizeRemaining := Z.of_nat (length (data o)) - offset in
          let size := Z.min tx sizeRemaining in
          modify (upd_out (set_chunkPayloadSize size));;
          let isFirst := bool_decide (offset = 0) in
          let n := if isFirst then Z.of_nat (length (data o)) else offset in
          let chunkPayload := js_slice (data o) offset (offset + size) in
          let chunk := chunk_header n isFirst ++ (byte_to_Z <$> chunkPayload) in
          effect (sendAppMessage (Some {[ ControlKeyChunk := OutArray chunk ]}) MsgObject)
      end.

Fixpoint _sendNext_ (fuel : nat) : M unit :=
  match fuel with
  | O => exhausted
  | S fuel' =>
      current ← gets (λ w, _currentMessageType (_out w));
      match current with
      | Some _ => mret tt
      | None =>
          type ← _getNextMessageType;
          match type with
          | None => mret tt
          | Some MsgControl =>
              modify (upd_out (set_currentMessageType type));;
              _trySendNextControl
          | Some MsgObject =>
              modify (upd_out (set_currentMessageType type));;
              _trySendNextChunk_ (_sendNext_ fuel')
          end
      end
  end.

(** Two nested calls are the most there can be: [_sendNext] is re-entered
    from [_chunkFailure] only right after [_resetCurrent], and then
    [_failureCount] is 0 ([sendNext_terminates] below). *)
Definition _sendNext : M unit := _sendNext_ 2.
Definition _trySendNextChunk : M unit := _trySendNextChunk_ _sendNext.
Definition _chunkFailure (e : string) : M unit := _chunkFailure_ _sendNext e.

Definition _controlSuccess : M unit :=
  modify (upd_out (λ s, set_controlQueue (tail (controlQueue s)) s));;
  _resetCurrent;;
  _sendNext.

Definition _createDataObject (o : jsval) : M DataObject :=
  match JSON_stringify o with
  | StringifyThrows _ =>
      throw (JSError "Error" "First argument must be JSON-serializable.")
  | StringifyUndefined =>
      throw (JSError "TypeError" "Argument at index 0 is not a JSON.stringify()-able object")
  | StringifyText native_str_msg =>
      let utf8_str_msg := utf8_encode native_str_msg in
      mret {| obj := o; data := utf8_str_msg ++ [x00]; json := native_str_msg |}
  end.

Definition _chunkSuccess : M unit :=
  first ← gets (λ w, head (objectQueue (_out w)));
  match first with
  | None => throw (JSError "TypeError" "Cannot read property 'data' of undefined")
  | Some o =>
      modify (upd_out (λ s, set_offsetBytes (_offsetBytes s + _chunkPayloadSize s) s));;
      offset ← gets (λ w, _offsetBytes (_out w));
      if bool_decide (offset = Z.of_nat (length (data o))) then
        _completeObject None;;
        _sendNext
      else _trySendNextChunk
  end.

(** The argument of [debugLog] is evaluated though nothing is logged: a
    value [JSON.stringify] throws on leaves [sendObject] by that exception. *)
Definition sendObject (o : jsval) : M unit :=
  match JSON_stringify o with StringifyThrows e => throw e | _ => mret tt end;;
  dataObj ← _createDataObject o;
  modify (upd_out (λ s, set_objectQueue (objectQueue s ++ [dataObj]) s));;
  _sendNext.

Definition sendControl (msg : Message) : M unit :=
  modify (upd_out (λ s, set_controlQueue (controlQueue s ++ [msg]) s));;
  _sendNext.

(** ** Receiver *)

Definition handleChunkReceived (chunk : option Chunk) : M bool :=
  match chunk with
  | None => mret false
  | Some chunk =>
      r ← gets _in;
      let isExpectingFirst := bool_decide (length (utf8_json_string r) = 0%nat) in
      if negb (Bool.eqb (chunk_is_first chunk) isExpectingFirst) then
        effect (console_error ("Protocol out of sync! chunk.is_first=" +:+
                  string_of_bool (chunk_is_first chunk) +:+ " isExpectingFirst=" +:+
                  string_of_bool isExpectingFirst));;
        mret false
      else
        in_sync ←
          match chunk with
          | FirstChunk total _ =>
              modify (upd_in (λ r, {| utf8_json_string := utf8_json_string r;
                                      total_size_bytes := total;
                                      received_size_bytes := 0 |}));;
              mret true
          | NextChunk offset_bytes d =>
              if bool_decide (received_size_bytes r ≠ offset_bytes) then
                effect (console_error ("Protocol out of sync! received_size_bytes=" +:+
                          pretty (received_size_bytes r) +:+ " chunk.offset_bytes=" +:+
                          pretty offset_bytes));;
                mret false
              else if bool_decide (received_size_bytes r + Z.of_nat (data_length d)
                                   > total_size_bytes r) then
                effect (console_error ("Protocol out of sync! received_size_bytes=" +:+
                          pretty (received_size_bytes r) +:+ " chunk.data.length=" +:+
                          pretty (Z.of_nat (data_length d)) +:+ " total_size_bytes=" +:+
                          pretty (total_size_bytes r)));;
                mret false
              else mret true
          end;
        if negb in_sync then mret false
        else
          let d := chunk_data chunk in
          modify (upd_in (λ r, {| utf8_json_string := utf8_json_string r;
                                  total_size_bytes := total_size_bytes r;
                                  received_size_bytes :=
                                    received_size_bytes r + Z.of_nat (data_length d) |}));;
          r ← gets _in;
          let isLastChunk := bool_decide (received_size_bytes r = total_size_bytes r) in
          let isLastChunkZeroTerminated := isLastChunk && zero_terminated d in
          (* Copy the received data over: the elements below [end]. *)
          let end_ := if isLastChunk then Z.of_nat (data_length d) - 1
                      else Z.of_nat (data_length d) in
          modify (upd_in (λ r, {| utf8_json_string :=
                                    utf8_json_string r
                                    ++ take (Z.to_nat end_) (data_codes d);
                                  total_size_bytes := total_size_bytes r;
                                  received_size_bytes := received_size_bytes r |}));;
          (if isLastChunk then
             (if isLastChunkZeroTerminated then
                text ← gets (λ w, utf8_json_string (_in w));
                json_string ← call (utf8_decode text);
                match JSON_parse json_string with
                | inl e =>
                    effect (console_error
                      ("Dropping message, failed to parse JSON with error: " +:+
                       exn_to_string e +:+ " (json_string=" +:+ json_string +:+ ")"))
                | inr JUndefined => mret tt
                | inr parsed => _callHandlersForEvent "message" (Some parsed)
                end
              else
                effect (console_error
                  "Last Chunk wasn't zero terminated! Dropping message."));;
             modify (upd_in (λ r, {| utf8_json_string := [];
                                     total_size_bytes := total_size_bytes r;
                                     received_size_bytes := received_size_bytes r |}))
           else mret tt);;
          mret true
  end.

(** ** Session control protocol *)

Definition _unpackResetCompleteMessage (d : InValue) : RemoteProtocol :=
  {| min_version := elem d 0;
     max_version := elem d 1;
     max_tx_chunk_size := js_or (js_shl (operand (elem d 2)) 8) (operand (elem d 3));
     max_rx_chunk_size := js_or (js_shl (operand (elem d 4)) 8) (operand (elem d 5)) |}.

Definition _unpackChunk (d : InValue) : M (option Chunk) :=
  match d with
  | InInt _ =>
      (* no [length], so the test on it is false; the header reads as 0,
         and [slice] is missing *)
      throw (JSError "TypeError" "data.slice is not a function")
  | InBytes a =>
      if bool_decide (length a ≤ 4)%nat then
        effect (console_error "Chunk data too short to be valid!");;
        mret None
      else
        let is_first_bit := js_shl 1 7 in
        let is_first :=
          bool_decide (is_first_bit = js_and (operand (elem d 3)) is_first_bit) in
        let msbyte := js_and (js_not is_first_bit) (operand (elem d 3)) in
        let num31bits :=
          js_or (js_or (js_or (js_shl msbyte 24) (js_shl (operand (elem d 2)) 16))
                       (js_shl (operand (elem d 1)) 8))
                (operand (elem d 0)) in
        mret (Some (if is_first then FirstChunk num31bits (Bytes (drop 4 a))
                    else NextChunk num31bits (Bytes (drop 4 a))))
  | InString s =>
      if bool_decide (String.length s ≤ 4)%nat then
        effect (console_error "Chunk data too short to be valid!");;
        mret None
      else
        let is_first_bit := js_shl 1 7 in
        let is_first :=
          bool_decide (is_first_bit = js_and (operand (elem d 3)) is_first_bit) in
        let msbyte := js_and (js_not is_first_bit) (operand (elem d 3)) in
        let num31bits :=
          js_or (js_or (js_or (js_shl msbyte 24) (js_shl (operand (elem d 2)) 16))
                       (js_shl (operand (elem d 1)) 8))
                (operand (elem d 0)) in
        let rest := String.string_of_list_ascii (drop 4 (String.list_ascii_of_string s)) in
        mret (Some (if is_first then FirstChunk num31bits (Text rest)
                    else NextChunk num31bits (Text rest)))
  end.

Definition _remoteProtocolValidateAndSet (remote : RemoteProtocol) : M bool :=
  if bool_decide (min_version remote = Undefined)
     || bool_decide (max_version remote = Undefined)
     || js_gt (ToNumber (min_version remote)) (Number PROTOCOL.max_version)
     || js_lt (ToNumber (max_version remote)) (Number PROTOCOL.min_version)
  then mret false
  else
    modify (upd_control (λ c,
      {| state := state c;
         protocol :=
           {| version := Math_min (ToNumber (max_version remote))
                                  (Number PROTOCOL.max_version);
              tx_chunk_size :=
                Z.min (max_rx_chunk_size remote) PROTOCOL.max_tx_chunk_size;
              rx_chunk_size :=
                Z.min (max_tx_chunk_size remote) PROTOCOL.max_rx_chunk_size |} |}));;
    mret true.

Definition _sendControlMessage (msg : Message) : M unit := sendControl msg.

Definition _controlSendResetComplete : M unit :=
  let d := [ ToUint8 PROTOCOL.min_version;
             ToUint8 PROTOCOL.max_version;
             ToUint8 (js_sar PROTOCOL.max_tx_chunk_size 8);
             ToUint8 PROTOCOL.max_tx_chunk_size;
             ToUint8 (js_sar PROTOCOL.max_rx_chunk_size 8);
             ToUint8 PROTOCOL.max_rx_chunk_size ] in
  _sendControlMessage {[ ControlKeyResetComplete := OutArray d ]}.

Definition _controlSendResetRequest : M unit :=
  _sendControlMessage {[ ControlKeyResetRequest := OutInt 0 ]}.

Definition _controlSendUnsupportedError : M unit :=
  _sendControlMessage {[ ControlKeyUnsupportedError := OutInt 0 ]}.

Definition resetProtocol : M unit :=
  modify (upd_control (λ c, {| state := state c; protocol := no_protocol |})).

Definition set_state (s : ControlState) : M unit :=
  modify (upd_control (λ c, {| state := s; protocol := protocol c |})).

Definition ControlTransitions (to_state from_state : ControlState) : M unit :=
  match to_state with
  | ControlStateDisconnected =>
      resetProtocol;;
      set_state ControlStateAwaitingResetCompleteRemoteInitiated
  | ControlStateAwaitingResetCompleteRemoteInitiated =>
      resetProtocol;;
      set_state ControlStateAwaitingResetCompleteRemoteInitiated;;
      _controlSendResetComplete
  | ControlStateAwaitingResetCompleteLocalInitiated =>
      (if bool_decide (from_state ≠ ControlStateAwaitingResetCompleteLocalInitiated)
       then _controlSendResetRequest else mret tt);;
      resetProtocol;;
      set_state ControlStateAwaitingResetCompleteLocalInitiated
  | ControlStateSessionOpen =>
      set_state ControlStateSessionOpen;;
      _callHandlersForEvent "postmessageconnected" None
  end.

Definition enter (to_state : ControlState) : M unit :=
  prev_state ← gets (λ w, state (_control w));
  ControlTransitions to_state prev_state;;
  if bool_decide (prev_state = ControlStateSessionOpen)
     && bool_decide (to_state ≠ ControlStateSessionOpen)
  then _callHandlersForEvent "postmessagedisconnected" None
  else mret tt.

Definition ControlHandlers (s : ControlState) (payload : Payload) : M unit :=
  match s with
  | ControlStateDisconnected => mret tt
  | ControlStateAwaitingResetCompleteRemoteInitiated =>
      match payload !! ControlKeyResetComplete with
      | Some d =>
          let remote_protocol := _unpackResetCompleteMessage d in
          (valid ← _remoteProtocolValidateAndSet remote_protocol;
           if (valid : bool) then enter ControlStateSessionOpen else mret tt) : M unit
      | None =>
          if has_key ControlKeyResetRequest payload then
            enter ControlStateAwaitingResetCompleteRemoteInitiated
          else if has_key ControlKeyChunk payload then
            enter ControlStateAwaitingResetCompleteLocalInitiated
          else
            match payload !! ControlKeyUnsupportedError with
            | Some (InInt n) =>
                throw (JSError "Error" ("Unsupported protocol error: " +:+ pretty n))
            | Some (InBytes a) =>
                throw (JSError "Error" ("Unsupported protocol error: " +:+
                         String.concat "," (pretty <$> (byte_to_Z <$> a))))
            | Some (InString s) =>
                throw (JSError "Error" ("Unsupported protocol error: " +:+ s))
            | None => mret tt
            end
      end
  | ControlStateAwaitingResetCompleteLocalInitiated =>
      match payload !! ControlKeyResetComplete with
      | Some d =>
          let remote_protocol := _unpackResetCompleteMessage d in
          (valid ← _remoteProtocolValidateAndSet remote_protocol;
           if (valid : bool) then
             _controlSendResetComplete;;
             enter ControlStateSessionOpen
           else _controlSendUnsupportedError) : M unit
      | None => mret tt
      end
  | ControlStateSessionOpen =>
      match payload !! ControlKeyChunk with
      | Some d =>
          chunk ← _unpackChunk d;
          in_sync ← handleChunkReceived chunk;
          if bool_decide (in_sync = false)
          then enter ControlStateAwaitingResetCompleteLocalInitiated
          else mret tt
      | None =>
          if has_key ControlKeyResetRequest payload then
            enter ControlStateAwaitingResetCompleteRemoteInitiated
          else
            enter ControlStateAwaitingResetCompleteLocalInitiated
      end
  end.

Definition handle (payload : Payload) : M unit :=
  s ← gets (λ w, state (_control w));
  ControlHandlers s payload.

Definition _controlFailure (e : string) : M unit :=
  modify (upd_out (λ s, set_failureCount (_failureCount s + 1) s));;
  count ← gets (λ w, _failureCount (_out w));
  let willRetry := bool_decide (count ≤ 3) in
  if willRetry then effect (setTimeout MsgControl 1000)
  else
    modify (upd_out (λ s, set_controlQueue (tail (controlQueue s)) s));;
    _resetCurrent;;
    enter ControlStateDisconnected;;
    _sendNext.

(** ** Public interface *)

Definition Pebble_postMessage (o : jsval) : M unit := sendObject o.

Definition on (event_name : string) (handler : Handler) : M unit :=
  match handler with
  | HValue _ =>
      throw (JSError "TypeError"
               ("Handler for event expected, received " +:+ typeof handler))
  | HFunction id =>
      modify (upd_EVENTS (λ ev,
        let l := default createHandlersList (ev !! event_name) in
        <[event_name := HandlersList.add id l]> ev));;
      s ← gets (λ w, state (_control w));
      if (bool_decide (event_name = "postmessageconnected")
          && bool_decide (s = ControlStateSessionOpen))
         || (bool_decide (event_name = "postmessagedisconnected")
             && bool_decide (s ≠ ControlStateSessionOpen))
      then _callHandler handler event_name None
      else mret tt
  end.

Definition Pebble_addEventListener (event_name : string) (handler : Handler) : M unit :=
  if _isPostMessageEvent event_name then on event_name handler
  else if bool_decide (event_name = "appmessage") then
    throw (JSError "Error"
             "App Message not supported with Rocky.js apps. See Pebble.postMessage()")
  else effect (native_addEventListener event_name handler).

(** Alias to the overridden implementation. *)
Definition Pebble_on : string → Handler → M unit := Pebble_addEventListener.

Definition off (event_name : string) (handler : Handler) : M unit :=
  match handler with
  | HValue JUndefined =>
      throw (JSError "TypeError" "Not enough arguments (missing handler)")
  | _ =>
      modify (upd_EVENTS (λ ev,
        match ev !! event_name with
        | Some l => <[event_name := HandlersList.remove handler l]> ev
        | None => ev
        end))
  end.

Definition Pebble_removeEventListener (event_name : string) (handler : Handler) : M unit :=
  if _isPostMessageEvent event_name then off event_name handler
  else effect (native_removeEventListener event_name handler).

(** Alias to the overridden implementation. *)
Definition Pebble_off : string → Handler → M unit := Pebble_removeEventListener.

(** ** What the host delivers to the module *)

Inductive HostEvent : Type :=
| Ready
| AppMessage (payload : Payload)
| SendSucceeded (callbacks : MessageType)
| SendFailed (callbacks : MessageType) (e : string)
| TimerFired (retry : MessageType)
| PostMessage (o : jsval)
| AddEventListener (event_name : string) (handler : Handler)
| RemoveEventListener (event_name : string) (handler : Handler).

Definition callback (ev : HostEvent) : M unit :=
  match ev with
  | Ready => enter ControlStateAwaitingResetCompleteLocalInitiated
  | AppMessage payload => handle payload
  | SendSucceeded MsgControl => _controlSuccess
  | SendSucceeded MsgObject => _chunkSuccess
  | SendFailed MsgControl e => _controlFailure e
  | SendFailed MsgObject e => _chunkFailure e
  | TimerFired MsgControl => _trySendNextControl
  | TimerFired MsgObject => _trySendNextChunk
  | PostMessage o => Pebble_postMessage o
  | AddEventListener event_name handler => Pebble_addEventListener event_name handler
  | RemoveEventListener event_name handler => Pebble_removeEventListener event_name handler
  end.

(** An exception that leaves a callback is the host's to report; the state
    stays as the callback left it. *)
Definition deliver (w : World) (ev : HostEvent) : World :=
  match callback ev w with
  | (Throw e, w') => upd_trace (λ t, t ++ [uncaught e]) w'
  | (_, w') => w'
  end.

Definition run (evs : list HostEvent) (w : World) : World := foldl deliver w evs.

(** The effects a computation adds to the trace. *)
Definition fresh_trace (w w' : World) : list Effect :=
  drop (length (trace w)) (trace w').

End Core.

(** ** A runtime to run the module on concrete inputs

    [utf8] on ASCII text, and [JSON] on the texts without white space,
    escapes and fractions.  The theorems below hold for every [Runtime];
    this one serves to evaluate the module on the scenarios. *)

Module Host.

Definition encode (s : string) : list byte :=
  Ascii.byte_of_ascii <$> String.list_ascii_of_string s.

Definition decode (l : list byte) : Exception + string :=
  if forallb (λ b, byte_to_Z b <? 128) l
  then inr (String.string_of_list_ascii (Ascii.ascii_of_byte <$> l))
  else inl (JSError "Error" "Invalid UTF-8 detected").

Definition member_text (stringify : jsval → option string) (f : string * jsval)
    : option string :=
  (λ t, dquote +:+ f.1 +:+ dquote +:+ ":" +:+ t) <$> stringify f.2.

Fixpoint stringify (v : jsval) : option string :=
  match v with
  | JUndefined => None
  | JNull => Some "null"
  | JBool b => Some (string_of_bool b)
  | JNumber n => Some (pretty n)
  | JString s => Some (dquote +:+ s +:+ dquote)
  | JArray items =>
      Some ("[" +:+ String.concat "," (map (λ i, default "null" (stringify i)) items)
            +:+ "]")
  | JObject fields =>
      Some ("{" +:+ String.concat ","
                      (omap (λ f, (λ t, dquote +:+ fst f +:+ dquote +:+ ":" +:+ t)
                                    <$> stringify (snd f)) fields)
            +:+ "}")
  end.

Definition is_digit (c : Ascii.ascii) : bool :=
  let n := Ascii.nat_of_ascii c in bool_decide (48 ≤ n ≤ 57)%nat.

Definition is_quote (c : Ascii.ascii) : bool :=
  bool_decide (Ascii.nat_of_ascii c = 34%nat).

(** The digits at the head of a text, as a number, and the rest. *)
Fixpoint digits (acc : Z) (s : list Ascii.ascii) : Z * list Ascii.ascii :=
  match s with
  | c :: r =>
      if is_digit c then digits (10 * acc + Z.of_nat (Ascii.nat_of_ascii c - 48)) r
      else (acc, s)
  | [] => (acc, [])
  end.

(** The characters up to the closing quote, and the rest after it. *)
Fixpoint quoted (s : list Ascii.ascii) : option (string * list Ascii.ascii) :=
  match s with
  | [] => None
  | c :: r =>
      if is_quote c then Some (EmptyString, r)
      else if bool_decide (Ascii.nat_of_ascii c = 92%nat) then None
      else '(t, r') ← quoted r; Some (String c t, r')
  end.

Fixpoint value (fuel : nat) (s : list Ascii.ascii) : option (jsval * list Ascii.ascii) :=
  match fuel with
  | O => None
  | S fuel' =>
      match s with
      | "n" :: "u" :: "l" :: "l" :: r => Some (JNull, r)
      | "t" :: "r" :: "u" :: "e" :: r => Some (JBool true, r)
      | "f" :: "a" :: "l" :: "s" :: "e" :: r => Some (JBool false, r)
      | "[" :: "]" :: r => Some (JArray [], r)
      | "[" :: r => '(l, r') ← items fuel' r; Some (JArray l, r')
      | "{" :: "}" :: r => Some (JObject [], r)
      | "{" :: r => '(l, r') ← members fuel' r; Some (JObject l, r')
      | "-" :: c :: r =>
          if is_digit c then let '(n, r') := digits 0 (c :: r) in Some (JNumber (- n), r')
          else None
      | c :: r =>
          if is_quote c then '(t, r') ← quoted r; Some (JString t, r')
          else if is_digit c then let '(n, r') := digits 0 s in Some (JNumber n, r')
          else None
      | [] => None
      end%char
  end
with items (fuel : nat) (s : list Ascii.ascii)
    : option (list jsval * list Ascii.ascii) :=
  match fuel with
  | O => None
  | S fuel' =>
      '(v, r) ← value fuel' s;
      match r with
      | "," :: r' => '(l, r'') ← items fuel' r'; Some (v :: l, r'')
      | "]" :: r' => Some ([v], r')
      | _ => None
      end%char
  end
with members (fuel : nat) (s : list Ascii.ascii)
    : option (list (string * jsval) * list Ascii.ascii) :=
  match fuel with
  | O => None
  | S fuel' =>
      match s with
      | c :: r =>
          if is_quote c then
            '(k, r1) ← quoted r;
            match r1 with
            | ":" :: r2 =>
                '(v, r3) ← value fuel' r2;
                match r3 with
                | "," :: r4 => '(l, r5) ← members fuel' r4; Some ((k, v) :: l, r5)
                | "}" :: r4 => Some ([(k, v)], r4)
                | _ => None
                end
            | _ => None
            end
          else None
      | [] => None
      end%char
  end.

Definition parse (s : string) : Exception + jsval :=
  let text := String.list_ascii_of_string s in
  match value (S (length text)) text with
  | Some (v, []) => inr v
  | _ => inl (JSError "SyntaxError" "Unexpected token in JSON")
  end.

#[global] Instance runtime : Runtime :=
  {| JSON_stringify := λ v, from_option StringifyText StringifyUndefined (stringify v);
     JSON_parse := parse;
     utf8_encode := encode;
     utf8_decode := decode |}.

End Host.

(** ** Notions the statements use *)

(** The functions registered for an event, and what a dispatch of the event
    adds to the trace: the dispatch, then one call per listener, in order of
    registration. *)
Definition listeners (w : World) (event_name : string) : list nat :=
  from_option handlers [] (EVENTS w !! event_name).

Definition notification (event_name : string) (callback_data : option jsval)
    (w : World) : list Effect :=
  dispatchEvent event_name callback_data ::
  ((λ id, callHandler (HFunction id) event_name callback_data)
     <$> listeners w event_name).

(** [preserves I m]: whatever way [m] ends, it keeps the property [I] of the
    world.  [ends m]: [m] never runs out of the fuel of [_sendNext_]. *)
Definition preserves {A} (I : World → Prop) (m : M A) : Prop :=
  ∀ w, I w → I (m w).2.

Definition ends {A} (m : M A) : Prop := ∀ w, (m w).1 ≠ Exhausted.

(** A property of the session ([_control]) and of the reassembly buffer
    ([_in]) alone. *)
Definition local (I : World → Prop) : Prop :=
  ∀ w w', _control w = _control w' → _in w = _in w' → I w → I w'.

(** What [sendControl] comes to: the message joins [controlQueue], and the
    head of the queue goes to the transport at once when nothing is in
    flight. *)
Definition sendControl_post (msg : Message) (w : World) : World :=
  let queued := upd_out (λ s, set_controlQueue (controlQueue s ++ [msg]) s) w in
  match _currentMessageType (_out w) with
  | Some _ => queued
  | None =>
      upd_trace (λ t, t ++ [sendAppMessage (head (controlQueue (_out w) ++ [msg]))
                              MsgControl])
        (upd_out (set_currentMessageType (Some MsgControl)) queued)
  end.

(** The state [_control.state] holds after [enter(to_state)]. *)
Definition landing (to_state : ControlState) : ControlState :=
  match to_state with
  | ControlStateDisconnected => ControlStateAwaitingResetCompleteRemoteInitiated
  | s => s
  end.

Definition ResetRequestMessage : Message := {[ ControlKeyResetRequest := OutInt 0 ]}.

(** A property of the session ([_control]) alone. *)
Definition of_control (I : World → Prop) : Prop :=
  ∀ w w', _control w = _control w' → I w → I w'.

(** The negotiated parameters, as the module keeps them: in [SessionOpen]
    the chunk sizes lie between 0 and the local maximum and the version is
    one of [versions]; in every other state all three are 0. *)
Definition session_invariant_ (versions : jsnumber → Prop) (w : World) : Prop :=
  let p := protocol (_control w) in
  (state (_control w) = ControlStateSessionOpen →
   versions (version p) ∧ 0 ≤ tx_chunk_size p ≤ PROTOCOL.max_tx_chunk_size
   ∧ 0 ≤ rx_chunk_size p ≤ PROTOCOL.max_rx_chunk_size)
  ∧ (state (_control w) ≠ ControlStateSessionOpen →
     version p = Number 0 ∧ tx_chunk_size p = 0 ∧ rx_chunk_size p = 0).

(** What holds whatever the transport delivers: nothing is said of the
    version of an open session. *)
Definition session_invariant : World → Prop := session_invariant_ (λ _, True).

(** What holds as long as no ResetComplete is a string: the version of an
    open session is 1. *)
Definition numeric_session_invariant : World → Prop :=
  session_invariant_ (λ v, v = Number 1).

(** An event of the host that delivers no string under the key of a
    ResetComplete. *)
Definition numeric_handshake (ev : HostEvent) : Prop :=
  match ev with
  | AppMessage payload => ∀ s, payload !! ControlKeyResetComplete ≠ Some (InString s)
  | _ => True
  end.

(** An event of the host after which an open session has one of
    [versions]: a ResetComplete it delivers, if accepted, gives one. *)
Definition negotiates `{Runtime} (versions : jsnumber → Prop) (ev : HostEvent) : Prop :=
  match ev with
  | AppMessage payload =>
      ∀ d w, payload !! ControlKeyResetComplete = Some d →
             (_remoteProtocolValidateAndSet (_unpackResetCompleteMessage d) w).1
               = Normal true →
             versions (Math_min (ToNumber (elem d 1)) (Number PROTOCOL.max_version))
  | _ => True
  end.

(** All three parameters positive in [SessionOpen], and 0 in every other
    state. *)
Definition positive_session_invariant (w : World) : Prop :=
  let p := protocol (_control w) in
  (state (_control w) = ControlStateSessionOpen →
   js_gt (version p) (Number 0) = true ∧ tx_chunk_size p > 0 ∧ rx_chunk_size p > 0)
  ∧ (state (_control w) ≠ ControlStateSessionOpen →
     version p = Number 0 ∧ tx_chunk_size p = 0 ∧ rx_chunk_size p = 0).

(** The parameters [_remoteProtocolValidateAndSet] stores for a remote it
    accepts. *)
Definition negotiated (remote : RemoteProtocol) : Protocol :=
  {| version := Math_min (ToNumber (max_version remote)) (Number PROTOCOL.max_version);
     tx_chunk_size := Z.min (max_rx_chunk_size remote) PROTOCOL.max_tx_chunk_size;
     rx_chunk_size := Z.min (max_tx_chunk_size remote) PROTOCOL.max_rx_chunk_size |}.

(** A ResetComplete of a remote that speaks version 1 and advertises chunk
    sizes of 0 bytes. *)
Definition ResetComplete_zero_sizes : Payload :=
  {[ ControlKeyResetComplete := InBytes [x01; x01; x00; x00; x00; x00] ]}.

(** ** Worlds and payloads of the scenarios *)

(** The ResetComplete of a remote with the capabilities of this module. *)
Definition ResetComplete_1000 : Payload :=
  {[ ControlKeyResetComplete := InBytes [x01; x01; x03; xe8; x03; xe8] ]}.

(** The module after the handshake of scenario S1, both control messages
    delivered: the session is open and nothing is queued. *)
Definition session_open_world : World :=
  @run Host.runtime
    [Ready; SendSucceeded MsgControl; AppMessage ResetComplete_1000;
     SendSucceeded MsgControl] initial.

(** A Chunk of two bytes: shorter than a header. *)
Definition short_chunk : Payload := {[ ControlKeyChunk := InBytes [x01; x02] ]}.

(** The ResetRequest of [ready] in flight, its send failed and retried three
    times already. *)
Definition thrice_failed_control_world : World :=
  @run Host.runtime
    [Ready;
     SendFailed MsgControl "timeout"; TimerFired MsgControl;
     SendFailed MsgControl "timeout"; TimerFired MsgControl;
     SendFailed MsgControl "timeout"; TimerFired MsgControl] initial.


(** The object of scenario S3, [{"a":1}]. *)
Definition small_object : jsval := JObject [("a", JNumber 1)].








(** ** The receiver on a sequence of chunks *)

(** The chunk handler called on each chunk of a sequence in turn; an
    exception that leaves a call leaves the buffer as it was at that
    point. *)
Definition receive `{Runtime} (chunks : list (option Chunk)) (w : World) : World :=
  foldl (λ w chunk, exec (handleChunkReceived chunk) w) w chunks.

(** What holds of the reassembly buffer after every call: the count is not
    negative, the buffer is no longer than the count, and they agree until
    the count reaches the announced total. *)
Definition receiver_invariant (r : ChunkReceiver) : Prop :=
  0 ≤ received_size_bytes r
  ∧ Z.of_nat (length (utf8_json_string r)) ≤ received_size_bytes r
  ∧ (received_size_bytes r ≠ total_size_bytes r →
     received_size_bytes r = Z.of_nat (length (utf8_json_string r))).

(** The count equal to the length of the buffer and within the total, at
    all times. *)
Definition strict_receiver_invariant (r : ChunkReceiver) : Prop :=
  received_size_bytes r = Z.of_nat (length (utf8_json_string r))
  ∧ 0 ≤ received_size_bytes r ≤ total_size_bytes r.

(** A first chunk that carries no more bytes than the total it announces. *)
Definition first_fits (chunk : option Chunk) : Prop :=
  match chunk with
  | Some (FirstChunk total d) => Z.of_nat (data_length d) ≤ total
  | _ => True
  end.

(** ** The keys on the wire *)

Definition wire_keys : list string :=
  [ControlKeyResetRequest; ControlKeyResetComplete; ControlKeyChunk;
   ControlKeyUnsupportedError].

(** A dictionary with one entry, under one of the four keys. *)
Definition wire_message (msg : Message) : Prop :=
  ∃ key value, key ∈ wire_keys ∧ msg = {[ key := value ]}.

(** Every dictionary queued for the transport or handed to it so far is a
    [wire_message]. *)
Definition wire_invariant (w : World) : Prop :=
  Forall wire_message (controlQueue (_out w))
  ∧ ∀ msg callbacks, sendAppMessage (Some msg) callbacks ∈ trace w → wire_message msg.

(** Two payloads that agree on the four keys. *)
Definition same_wire_entries (p p' : Payload) : Prop :=
  ∀ key, key ∈ wire_keys → p !! key = p' !! key.

(** [_sendNext] is called again from [_chunkFailure] and [_trySendNextChunk]
    only with no failure counted: it ends from there. *)
Definition ends_fresh `{Runtime} (ms : M unit) : Prop :=
  ∀ w, _failureCount (_out w) = 0 → (ms w).1 ≠ Exhausted.

(** ** A message in chunks *)

(** The chunks that carry the pieces of a message, as [_unpackChunk]
    returns them: the first announces the total size, each of the others
    the number of bytes before it. *)
Fixpoint chunks_from (offset : Z) (pieces : list (list byte)) : list (option Chunk) :=
  match pieces with
  | [] => []
  | d :: pieces' =>
      Some (NextChunk offset (Bytes d))
        :: chunks_from (offset + Z.of_nat (length d)) pieces'
  end.

Definition chunks_of (pieces : list (list byte)) : list (option Chunk) :=
  match pieces with
  | [] => []
  | d :: pieces' =>
      Some (FirstChunk (Z.of_nat (length (concat pieces))) (Bytes d))
        :: chunks_from (Z.of_nat (length d)) pieces'
  end.


(** ** An object in chunks *)

(** A byte string cut into pieces of [size] bytes, the last one shorter
    when the length is no multiple of [size]. *)
Fixpoint cut_ (fuel size : nat) (bytes : list byte) : list (list byte) :=
  match fuel with
  | O => []
  | S fuel' =>
      match bytes with
      | [] => []
      | _ => take size bytes :: cut_ fuel' size (drop size bytes)
      end
  end.

Definition cut (size : nat) (bytes : list byte) : list (list byte) :=
  cut_ (length bytes) size bytes.

(** The array the Sender hands to the transport for a chunk, the dictionary
    that holds it, and the dictionary the transport delivers for the bytes of
    a chunk. *)
Definition chunk_array (c : Chunk) : list Z :=
  match c with
  | FirstChunk total d => chunk_header total true ++ (byte_to_Z <$> data_codes d)
  | NextChunk offset d => chunk_header offset false ++ (byte_to_Z <$> data_codes d)
  end.

Definition chunk_message (c : Chunk) : Message :=
  {[ ControlKeyChunk := OutArray (chunk_array c) ]}.


(** The Sender handing each chunk of a list to the transport. *)
Definition sends (chunks : list (option Chunk)) : list Effect :=
  (λ c, sendAppMessage (chunk_message <$> c) MsgObject) <$> chunks.




(** * Reasoning about the module *)

(** The monad operations unfold when a computation is applied to a world. *)
#[local] Arguments mbind _ _ _ _ _ _ /.
#[local] Arguments mret _ _ _ _ /.
#[local] Arguments M_bind _ _ _ _ _ /.
#[local] Arguments M_ret _ _ _ /.
#[local] Arguments gets _ _ _ /.
#[local] Arguments modify _ _ /.
#[local] Arguments effect _ _ /.
#[local] Arguments throw _ _ _ /.
#[local] Arguments exhausted _ _ /.
#[local] Arguments call _ _ _ /.
#[local] Arguments isSessionOpen _ /.
#[local] Arguments _callHandler _ _ _ _ /.
#[local] Arguments upd_out _ _ /.
#[local] Arguments upd_in _ _ /.
#[local] Arguments upd_control _ _ /.
#[local] Arguments upd_EVENTS _ _ /.
#[local] Arguments upd_trace _ _ /.

Section Registry.

Lemma call_each_spec n event_name callback_data w l :
  EVENTS w !! event_name = Some l →
  (pos l + n = length (handlers l))%nat →
  call_each n event_name callback_data w =
    (Normal tt,
     {| _out := _out w; _in := _in w; _control := _control w;
        EVENTS := <[event_name := {| pos := length (handlers l);
                                     handlers := handlers l |}]> (EVENTS w);
        trace := trace w ++
                 ((λ id, callHandler (HFunction id) event_name callback_data)
                    <$> drop (pos l) (handlers l)) |}).
Proof.
  revert w l. induction n as [|n IH]; intros w l Hl Hn.
  - destruct w, l as [p hs]; cbn in *.
    assert (p = length hs) as -> by lia.
    rewrite insert_id by done. rewrite drop_all, app_nil_r. done.
  - cbn. rewrite Hl. cbn. unfold HandlersList.next.
    rewrite bool_decide_true by lia.
    destruct (lookup_lt_is_Some_2 (handlers l) (pos l)) as [h Hh]; [lia|].
    rewrite Hh. cbn.
    erewrite IH; [|cbn; apply lookup_insert_eq|cbn; lia].
    cbn. rewrite insert_insert_eq. do 2 f_equal.
    rewrite <- app_assoc. cbn. f_equal.
    by rewrite (drop_S _ _ _ Hh).
Qed.

Lemma callHandlersForEvent_spec event_name callback_data w :
  ∃ ev,
    _callHandlersForEvent event_name callback_data w =
      (Normal tt,
       {| _out := _out w; _in := _in w; _control := _control w; EVENTS := ev;
          trace := trace w ++ notification event_name callback_data w |})
    ∧ ∀ k, handlers <$> ev !! k = handlers <$> EVENTS w !! k.
Proof.
  unfold _callHandlersForEvent, notification, listeners. cbn.
  destruct (EVENTS w !! event_name) as [l|] eqn:Hl; cbn.
  - erewrite call_each_spec; [|cbn; apply lookup_insert_eq|cbn; lia].
    cbn. eexists. split.
    + rewrite <- app_assoc. reflexivity.
    + intros k. rewrite insert_insert_eq.
      destruct (decide (event_name = k)) as [->|].
      * by rewrite lookup_insert_eq, Hl.
      * by rewrite lookup_insert_ne.
  - eexists. split; [reflexivity|done].
Qed.

(** A dispatch moves the cursors of the registry and extends the trace. *)
Lemma callHandlersForEvent_preserves (I : World → Prop) event_name callback_data :
  (∀ w ev t, I w →
     I {| _out := _out w; _in := _in w; _control := _control w; EVENTS := ev;
          trace := trace w ++ t |}) →
  preserves I (_callHandlersForEvent event_name callback_data).
Proof.
  intros HI w Hw.
  destruct (callHandlersForEvent_spec event_name callback_data w) as (ev & -> & _).
  by apply HI.
Qed.

End Registry.

(** The functions of the module stay folded until a proof unfolds them. *)
#[local] Arguments _callHandlersForEvent : simpl never.
#[local] Arguments _scheduleAsyncPostMessageError : simpl never.
#[local] Arguments _resetCurrent : simpl never.
#[local] Arguments _getNextMessageType : simpl never.
#[local] Arguments _trySendNextControl : simpl never.
#[local] Arguments _completeObject : simpl never.
#[local] Arguments _chunkFailure_ : simpl never.
#[local] Arguments _trySendNextChunk_ : simpl never.
#[local] Arguments _sendNext : simpl never.
#[local] Arguments _trySendNextChunk : simpl never.
#[local] Arguments _chunkFailure : simpl never.
#[local] Arguments _controlSuccess : simpl never.
#[local] Arguments _createDataObject : simpl never.
#[local] Arguments _chunkSuccess : simpl never.
#[local] Arguments sendObject : simpl never.
#[local] Arguments sendControl : simpl never.
#[local] Arguments handleChunkReceived : simpl never.
#[local] Arguments _unpackChunk : simpl never.
#[local] Arguments _remoteProtocolValidateAndSet : simpl never.
#[local] Arguments _sendControlMessage : simpl never.
#[local] Arguments _controlSendResetComplete : simpl never.
#[local] Arguments _controlSendResetRequest : simpl never.
#[local] Arguments _controlSendUnsupportedError : simpl never.
#[local] Arguments resetProtocol : simpl never.
#[local] Arguments set_state : simpl never.
#[local] Arguments ControlTransitions : simpl never.
#[local] Arguments enter : simpl never.
#[local] Arguments ControlHandlers : simpl never.
#[local] Arguments handle : simpl never.
#[local] Arguments _controlFailure : simpl never.
#[local] Arguments on : simpl never.
#[local] Arguments off : simpl never.
#[local] Arguments Pebble_postMessage : simpl never.
#[local] Arguments Pebble_addEventListener : simpl never.
#[local] Arguments Pebble_removeEventListener : simpl never.
#[local] Arguments callback : simpl never.
#[local] Arguments chunk_header : simpl never.
#[local] Arguments js_slice : simpl never.
#[local] Arguments singletonM : simpl never.
#[local] Arguments ControlKeyResetRequest : simpl never.
#[local] Arguments ControlKeyResetComplete : simpl never.
#[local] Arguments ControlKeyChunk : simpl never.
#[local] Arguments ControlKeyUnsupportedError : simpl never.

(** Replace a dispatch by its result. *)
Ltac dispatch_events :=
  match goal with
  | |- context [_callHandlersForEvent ?n ?d ?w0] =>
      let ev := fresh "ev" in
      let Hev := fresh "Hev" in
      destruct (callHandlersForEvent_spec n d w0) as (ev & -> & Hev)
  end.

(** Run a computation on a symbolic world: unfold the monad, rewrite with
    the equations at hand, and settle the tests the hypotheses decide. *)
Ltac use_eqs :=
  match goal with
  | H : ?l = _ |- context [?l] => tryif is_var l then fail else rewrite H
  end.

Ltac decide_step :=
  match goal with
  | |- context [bool_decide ?P] =>
      first [ rewrite (bool_decide_true P) by (done || lia || naive_solver)
            | rewrite (bool_decide_false P) by (done || lia || naive_solver) ]
  end.

Ltac mrun := repeat first [ progress cbn | use_eqs | decide_step ].

(** Settle a closed conjunction of equations and disequations between
    evaluated terms. *)
Ltac by_evaluation :=
  cbv zeta;
  repeat match goal with |- _ ∧ _ => split end;
  first [ vm_compute; reflexivity | vm_compute; discriminate ].

(** ** Properties every step keeps, and computations that end *)

Section Logic.
Context {A : Type}.
Implicit Types (I : World → Prop) (m : M A).

Lemma preserves_ret I (a : A) : preserves I (mret a).
Proof. intros w Hw. exact Hw. Qed.

Lemma preserves_throw I e : preserves I (throw e : M A).
Proof. intros w Hw. exact Hw. Qed.

Lemma preserves_exhausted I : preserves I (exhausted : M A).
Proof. intros w Hw. exact Hw. Qed.

Lemma preserves_gets I (f : World → A) : preserves I (gets f).
Proof. intros w Hw. exact Hw. Qed.

Lemma preserves_call I (r : Exception + A) : preserves I (call r).
Proof. intros w Hw. destruct r; exact Hw. Qed.

Lemma preserves_bind {B} I (m : M B) (f : B → M A) :
  preserves I m → (∀ b, preserves I (f b)) → preserves I (m ≫= f).
Proof.
  intros Hm Hf w Hw. specialize (Hm w Hw). cbn.
  destruct (m w) as [[b| |] w']; cbn in *; auto. by apply Hf.
Qed.

Lemma ends_ret (a : A) : ends (mret a).
Proof. intros w. discriminate. Qed.

Lemma ends_throw e : ends (throw e : M A).
Proof. intros w. discriminate. Qed.

Lemma ends_gets (f : World → A) : ends (gets f).
Proof. intros w. discriminate. Qed.

Lemma ends_call (r : Exception + A) : ends (call r).
Proof. intros w. destruct r; discriminate. Qed.

Lemma ends_bind {B} (m : M B) (f : B → M A) :
  ends m → (∀ b, ends (f b)) → ends (m ≫= f).
Proof.
  intros Hm Hf w. specialize (Hm w). cbn.
  destruct (m w) as [[b| |] w'] eqn:E; cbn in *; try done. apply Hf.
Qed.

End Logic.

Lemma preserves_modify I f : (∀ w, I w → I (f w)) → preserves I (modify f).
Proof. intros Hf w Hw. by apply Hf. Qed.

Lemma ends_modify f : ends (modify f).
Proof. intros w. discriminate. Qed.

Lemma ends_effect e : ends (effect e).
Proof. intros w. discriminate. Qed.

Create HintDb transport discriminated.

(** One step of a proof that follows the shape of a computation. *)
Ltac shape_step :=
  lazymatch goal with
  | |- preserves _ (mret _) => apply preserves_ret
  | |- preserves _ (throw _) => apply preserves_throw
  | |- preserves _ exhausted => apply preserves_exhausted
  | |- preserves _ (gets _) => apply preserves_gets
  | |- preserves _ isSessionOpen => apply preserves_gets
  | |- preserves _ (call _) => apply preserves_call
  | |- preserves _ (mbind _ _) => apply preserves_bind; [|intros ?]
  | |- preserves _ (if ?b then _ else _) => destruct b
  | |- preserves _ (match ?x with _ => _ end) => destruct x
  | |- preserves _ _ => idtac
  | |- ends (mret _) => apply ends_ret
  | |- ends (throw _) => apply ends_throw
  | |- ends (gets _) => apply ends_gets
  | |- ends isSessionOpen => apply ends_gets
  | |- ends (call _) => apply ends_call
  | |- ends (modify _) => apply ends_modify
  | |- ends (effect _) => apply ends_effect
  | |- ends (mbind _ _) => apply ends_bind; [|intros ?]
  | |- ends (if ?b then _ else _) => destruct b
  | |- ends (match ?x with _ => _ end) => destruct x
  | |- ends _ => idtac
  end.

Ltac shape := repeat (progress shape_step); try solve [eauto with transport].

(** ** The Sender and the registry leave the session and the receiver alone *)

Section Frames.
Context `{Runtime}.
Variable I : World → Prop.
Hypothesis local_I : local I.

Lemma preserves_upd_out f : preserves I (modify (upd_out f)).
Proof. apply preserves_modify. intros w. by apply local_I. Qed.

Lemma preserves_upd_EVENTS f : preserves I (modify (upd_EVENTS f)).
Proof. apply preserves_modify. intros w. by apply local_I. Qed.

Lemma preserves_effect e : preserves I (effect e).
Proof. apply preserves_modify. intros w. by apply local_I. Qed.

Hint Resolve preserves_upd_out preserves_upd_EVENTS preserves_effect : transport.

Lemma callHandlersForEvent_local event_name callback_data :
  preserves I (_callHandlersForEvent event_name callback_data).
Proof.
  intros w. destruct (callHandlersForEvent_spec event_name callback_data w)
    as (ev & -> & _). by apply local_I.
Qed.
Hint Resolve callHandlersForEvent_local : transport.

Lemma scheduleAsyncPostMessageError_local jsonString reason :
  preserves I (_scheduleAsyncPostMessageError jsonString reason).
Proof. unfold _scheduleAsyncPostMessageError. shape. Qed.
Hint Resolve scheduleAsyncPostMessageError_local : transport.

Lemma resetCurrent_local : preserves I _resetCurrent.
Proof. unfold _resetCurrent. shape. Qed.
Hint Resolve resetCurrent_local : transport.

Lemma getNextMessageType_local : preserves I _getNextMessageType.
Proof. unfold _getNextMessageType. shape. Qed.
Hint Resolve getNextMessageType_local : transport.

Lemma trySendNextControl_local : preserves I _trySendNextControl.
Proof. unfold _trySendNextControl. shape. Qed.
Hint Resolve trySendNextControl_local : transport.

Lemma completeObject_local reason : preserves I (_completeObject reason).
Proof. unfold _completeObject. shape. Qed.
Hint Resolve completeObject_local : transport.

Lemma chunkFailure__local ms e : preserves I ms → preserves I (_chunkFailure_ ms e).
Proof. intros Hms. unfold _chunkFailure_. shape. Qed.
Hint Resolve chunkFailure__local : transport.

Lemma trySendNextChunk__local ms : preserves I ms → preserves I (_trySendNextChunk_ ms).
Proof. intros Hms. unfold _trySendNextChunk_. shape. Qed.
Hint Resolve trySendNextChunk__local : transport.

Lemma sendNext__local fuel : preserves I (_sendNext_ fuel).
Proof. induction fuel as [|fuel IH]; cbn [_sendNext_]; shape. Qed.

Lemma sendNext_local : preserves I _sendNext.
Proof. apply sendNext__local. Qed.
Hint Resolve sendNext_local : transport.

Lemma trySendNextChunk_local : preserves I _trySendNextChunk.
Proof. unfold _trySendNextChunk. shape. Qed.

Lemma chunkFailure_local e : preserves I (_chunkFailure e).
Proof. unfold _chunkFailure. shape. Qed.

Lemma controlSuccess_local : preserves I _controlSuccess.
Proof. unfold _controlSuccess. shape. Qed.

Lemma chunkSuccess_local : preserves I _chunkSuccess.
Proof. unfold _chunkSuccess. pose proof trySendNextChunk_local. shape. Qed.

Lemma sendObject_local o : preserves I (sendObject o).
Proof. unfold sendObject, _createDataObject. shape. Qed.

Lemma sendControl_local msg : preserves I (sendControl msg).
Proof. unfold sendControl. shape. Qed.

End Frames.

(** ** [_sendNext] ends: two nested calls suffice *)

Section Termination.
Context `{Runtime}.

Lemma callHandlersForEvent_ends event_name callback_data :
  ends (_callHandlersForEvent event_name callback_data).
Proof.
  intros w. destruct (callHandlersForEvent_spec event_name callback_data w)
    as (ev & -> & _). discriminate.
Qed.
Hint Resolve callHandlersForEvent_ends : transport.

Lemma completeObject_ends reason : ends (_completeObject reason).
Proof.
  unfold _completeObject, _resetCurrent, _scheduleAsyncPostMessageError. shape.
Qed.

(** After [_completeObject] nothing is in flight and no failure is counted. *)
Lemma completeObject_resets reason w :
  _failureCount (_out (_completeObject reason w).2) = 0.
Proof.
  unfold _completeObject, _resetCurrent, _scheduleAsyncPostMessageError. cbn.
  destruct reason as [reason|]; [|done].
  destruct (head _) as [o|]; [|done]. cbn.
  destruct (JSON_parse _) as [e|parsed]; [done|]. cbn.
  dispatch_events. done.
Qed.

Lemma chunkFailure__ends ms e : ends_fresh ms → ends (_chunkFailure_ ms e).
Proof.
  intros Hms w. unfold _chunkFailure_. cbn.
  case_bool_decide; [done|]. cbn.
  match goal with |- context [_completeObject ?r ?w0] =>
    pose proof (completeObject_ends r w0) as He;
    pose proof (completeObject_resets r w0) as Hz;
    destruct (_completeObject r w0) as [[[]| |] w1]
  end; cbn in *; try done.
  by apply Hms.
Qed.

Lemma trySendNextChunk__ends ms : ends_fresh ms → ends (_trySendNextChunk_ ms).
Proof.
  intros Hms w. unfold _trySendNextChunk_, _getNextMessageType, _resetCurrent. cbn.
  repeat (case_bool_decide; cbn); try (by apply Hms);
    try (by apply chunkFailure__ends);
    try (destruct (head _); cbn; done).
Qed.

Lemma sendNext_1_ends_fresh : ends_fresh (_sendNext_ 1).
Proof.
  intros [[cq oq cur fc ob cp] i c ev t] Hfc. cbn in Hfc. subst fc.
  cbn [_sendNext_]. unfold _trySendNextChunk_, _chunkFailure_, _getNextMessageType. cbn.
  destruct cur; [done|].
  destruct cq as [|m cq], oq as [|o oq]; cbn; try done.
  repeat (case_bool_decide; cbn; try done).
Qed.

Lemma sendNext_ends : ends _sendNext.
Proof.
  intros w. unfold _sendNext. cbn [_sendNext_]. cbn.
  destruct (_currentMessageType _); [done|].
  unfold _getNextMessageType. cbn.
  repeat case_bool_decide; cbn; try done.
  apply trySendNextChunk__ends, sendNext_1_ends_fresh.
Qed.

Lemma sendNext_ends_fresh : ends_fresh _sendNext.
Proof. intros w _. apply sendNext_ends. Qed.

Hint Resolve sendNext_ends completeObject_ends : transport.

Lemma trySendNextChunk_ends : ends _trySendNextChunk.
Proof. apply trySendNextChunk__ends, sendNext_ends_fresh. Qed.

Lemma chunkFailure_ends e : ends (_chunkFailure e).
Proof. apply chunkFailure__ends, sendNext_ends_fresh. Qed.

Lemma controlSuccess_ends : ends _controlSuccess.
Proof. unfold _controlSuccess, _resetCurrent. shape. Qed.

Lemma chunkSuccess_ends : ends _chunkSuccess.
Proof. unfold _chunkSuccess. pose proof trySendNextChunk_ends. shape. Qed.

Lemma sendObject_ends o : ends (sendObject o).
Proof. unfold sendObject, _createDataObject. shape. Qed.

Lemma sendControl_ends msg : ends (sendControl msg).
Proof. unfold sendControl. shape. Qed.

End Termination.

(** ** The Sender, case by case *)

Section SenderCases.
Context `{Runtime}.

Lemma sendControl_spec msg w :
  sendControl msg w = (Normal tt, sendControl_post msg w).
Proof.
  unfold sendControl, sendControl_post, _sendNext. cbn.
  unfold _getNextMessageType, _trySendNextControl. cbn.
  destruct (_currentMessageType (_out w)); [done|]. cbn.
  rewrite length_app, bool_decide_true by (cbn; lia). done.
Qed.

Lemma sendControl_post_control msg w : _control (sendControl_post msg w) = _control w.
Proof. unfold sendControl_post. by destruct (_currentMessageType _). Qed.

Lemma sendControl_post_in msg w : _in (sendControl_post msg w) = _in w.
Proof. unfold sendControl_post. by destruct (_currentMessageType _). Qed.

Lemma sendControl_post_EVENTS msg w : EVENTS (sendControl_post msg w) = EVENTS w.
Proof. unfold sendControl_post. by destruct (_currentMessageType _). Qed.

Lemma sendControl_post_queue msg w :
  controlQueue (_out (sendControl_post msg w)) = controlQueue (_out w) ++ [msg].
Proof. unfold sendControl_post. by destruct (_currentMessageType _). Qed.


(** Nothing in flight, no control message, an object queued and the session
    open: the chunk at [_offsetBytes] is sent. *)
Lemma sendNext_object w o oq :
  _currentMessageType (_out w) = None →
  controlQueue (_out w) = [] →
  objectQueue (_out w) = o :: oq →
  state (_control w) = ControlStateSessionOpen →
  let offset := _offsetBytes (_out w) in
  let size := Z.min (tx_chunk_size (protocol (_control w)))
                    (Z.of_nat (length (data o)) - offset) in
  let isFirst := bool_decide (offset = 0) in
  let n := if isFirst then Z.of_nat (length (data o)) else offset in
  _sendNext w =
    (Normal tt,
     upd_trace (λ t, t ++ [sendAppMessage
         (Some {[ ControlKeyChunk :=
                    OutArray (chunk_header n isFirst ++
                              (byte_to_Z <$> js_slice (data o) offset (offset + size))) ]})
         MsgObject])
       (upd_out (λ s, set_chunkPayloadSize size
                        (set_currentMessageType (Some MsgObject) s)) w)).
Proof.
  intros Hcur Hcq Hoq Hopen. unfold _sendNext. cbn.
  unfold _trySendNextChunk_, _getNextMessageType. mrun. done.
Qed.

End SenderCases.

#[local] Arguments sendControl_post : simpl never.

(** ** Entering a control state *)

Section ControlFacts.
Context `{Runtime}.

(** Replace a [sendControl] by its result. *)
Ltac send_control := rewrite sendControl_spec.

Lemma enter_closed to_state w :
  to_state ≠ ControlStateSessionOpen →
  ∃ w', enter to_state w = (Normal tt, w')
        ∧ _control w' = {| state := landing to_state; protocol := no_protocol |}
        ∧ _in w' = _in w.
Proof.
  intros Hto. unfold enter. cbn.
  rewrite (bool_decide_true (to_state ≠ _)) by done.
  unfold ControlTransitions, resetProtocol, set_state, _controlSendResetRequest,
    _controlSendResetComplete, _sendControlMessage.
  destruct to_state; [| | |done]; cbn.
  - case_bool_decide; cbn; [dispatch_events|]; eauto.
  - send_control. cbn.
    case_bool_decide; cbn; [dispatch_events|]; eexists; split; try done; cbn;
      by rewrite sendControl_post_control, sendControl_post_in.
  - case_bool_decide; cbn; [send_control|]; cbn;
      (case_bool_decide; cbn; [dispatch_events|]); eexists; split; try done; cbn;
      by rewrite ?sendControl_post_in.
Qed.

Lemma enter_open w :
  ∃ w', enter ControlStateSessionOpen w = (Normal tt, w')
        ∧ _control w' = {| state := ControlStateSessionOpen;
                           protocol := protocol (_control w) |}
        ∧ _in w' = _in w.
Proof.
  unfold enter, ControlTransitions, set_state. cbn.
  dispatch_events. cbn.
  rewrite (bool_decide_false (ControlStateSessionOpen ≠ _)) by naive_solver.
  rewrite andb_false_r. cbn. eauto.
Qed.

(** Leaving [SessionOpen] for the local-initiated reset: the ResetRequest is
    queued first, then the parameters are reset, then the listeners of
    [postmessagedisconnected] are told. *)
Lemma enter_LI_from_open w :
  state (_control w) = ControlStateSessionOpen →
  ∃ ev,
    enter ControlStateAwaitingResetCompleteLocalInitiated w =
      (Normal tt,
       {| _out := _out (sendControl_post ResetRequestMessage w);
          _in := _in w;
          _control := {| state := ControlStateAwaitingResetCompleteLocalInitiated;
                         protocol := no_protocol |};
          EVENTS := ev;
          trace := trace (sendControl_post ResetRequestMessage w) ++
                   notification "postmessagedisconnected" None w |})
    ∧ ∀ k, handlers <$> ev !! k = handlers <$> EVENTS w !! k.
Proof.
  intros Hopen.
  unfold enter, ControlTransitions, resetProtocol, set_state,
    _controlSendResetRequest, _sendControlMessage. mrun.
  send_control. mrun. dispatch_events.
  exists ev. split.
  - unfold notification, listeners. cbn.
    by rewrite sendControl_post_in, sendControl_post_EVENTS.
  - intros k. rewrite Hev. cbn. by rewrite sendControl_post_EVENTS.
Qed.

End ControlFacts.

(** ** The negotiated parameters *)

Lemma ToInt32_small z : - 2 ^ 31 ≤ z < 2 ^ 31 → ToInt32 z = z.
Proof. intros Hz. unfold ToInt32. rewrite Z.mod_small; lia. Qed.

Lemma byte_to_Z_range b : 0 ≤ byte_to_Z b ≤ 255.
Proof. unfold byte_to_Z. pose proof (Byte.to_N_bounded b). lia. Qed.

Lemma operand_char_range c : 0 ≤ operand (Char c) ≤ 9.
Proof.
  unfold operand, ToNumber. case_bool_decide; [lia|].
  destruct (StrWhiteSpaceChar c); lia.
Qed.

Lemma operand_elem_range d i : 0 ≤ operand (elem d i) ≤ 255.
Proof.
  unfold elem. destruct d as [n|a|s].
  - cbn. lia.
  - destruct (a !! i) as [b|]; cbn; [apply byte_to_Z_range|lia].
  - destruct (_ !! i) as [c|]; cbn -[operand]; [|cbn; lia].
    pose proof (operand_char_range c). lia.
Qed.

(** Two bytes, the high one first, make a number below 65536. *)
Lemma two_bytes_range hi lo :
  0 ≤ hi ≤ 255 → 0 ≤ lo ≤ 255 → 0 ≤ js_or (js_shl hi 8) lo ≤ 65535.
Proof.
  intros Hhi Hlo. unfold js_or, js_shl.
  change (Z.land 8 31) with 8. rewrite Z.shiftl_mul_pow2 by lia.
  rewrite (ToInt32_small hi) by lia.
  rewrite (ToInt32_small (hi * 2 ^ 8)) by lia.
  rewrite (ToInt32_small (hi * 2 ^ 8)) by lia.
  rewrite (ToInt32_small lo) by lia.
  pose proof (Z.add_lor_land (hi * 2 ^ 8) lo).
  assert (0 ≤ Z.land (hi * 2 ^ 8) lo) by (apply Z.land_nonneg; lia).
  assert (0 ≤ Z.lor (hi * 2 ^ 8) lo) by (apply Z.lor_nonneg; lia).
  lia.
Qed.

Section Session.
Context `{Runtime}.

Lemma session_invariant_of_control versions : of_control (session_invariant_ versions).
Proof. intros w w' Hc. unfold session_invariant_. by rewrite Hc. Qed.

Lemma of_control_local I : of_control I → local I.
Proof. intros HI w w' Hc _. by apply HI. Qed.

(** The remote is accepted, and its parameters stored, or it is refused and
    nothing changes. *)
Lemma remoteProtocolValidateAndSet_spec remote w :
  _remoteProtocolValidateAndSet remote w =
    (Normal true,
     upd_control (λ c, {| state := state c; protocol := negotiated remote |}) w)
  ∨ _remoteProtocolValidateAndSet remote w = (Normal false, w).
Proof.
  unfold _remoteProtocolValidateAndSet, negotiated.
  destruct (_ || _); [by right|by left].
Qed.

(** A remote whose versions are numbers is accepted with version 1. *)
Lemma accepted_numeric_version remote w mx :
  max_version remote = Num mx →
  (_remoteProtocolValidateAndSet remote w).1 = Normal true →
  version (negotiated remote) = Number 1.
Proof.
  unfold _remoteProtocolValidateAndSet, negotiated. intros ->. cbn.
  unfold PROTOCOL.min_version, PROTOCOL.max_version.
  destruct (bool_decide (min_version remote = Undefined)); [done|].
  rewrite (bool_decide_false (Num mx = Undefined)) by done. cbn.
  destruct (js_gt _ _); [done|]. cbn.
  case_bool_decide; [done|]. cbn. intros _. f_equal. lia.
Qed.

(** The chunk sizes of an accepted remote are within the local maximum. *)
Lemma negotiated_range d :
  let p := negotiated (_unpackResetCompleteMessage d) in
  0 ≤ tx_chunk_size p ≤ PROTOCOL.max_tx_chunk_size
  ∧ 0 ≤ rx_chunk_size p ≤ PROTOCOL.max_rx_chunk_size.
Proof.
  unfold negotiated. cbn.
  unfold PROTOCOL.max_tx_chunk_size, PROTOCOL.max_rx_chunk_size.
  pose proof (two_bytes_range _ _ (operand_elem_range d 2) (operand_elem_range d 3)).
  pose proof (two_bytes_range _ _ (operand_elem_range d 4) (operand_elem_range d 5)).
  lia.
Qed.

Lemma enter_closed_session_invariant versions to_state :
  to_state ≠ ControlStateSessionOpen →
  preserves (session_invariant_ versions) (enter to_state).
Proof.
  intros Hto w _. destruct (enter_closed to_state w Hto) as (w' & -> & Hc & _).
  unfold session_invariant_. cbn. rewrite Hc. cbn.
  split; [|done]. by destruct to_state.
Qed.

End Session.

(** What depends on the session alone is kept by everything but [enter] and
    [_remoteProtocolValidateAndSet]. *)
Section ControlOnly.
Context `{Runtime}.
Variable I : World → Prop.
Hypothesis control_I : of_control I.

Let local_I : local I := of_control_local I control_I.

Lemma preserves_upd_in f : preserves I (modify (upd_in f)).
Proof. apply preserves_modify. intros w. by apply control_I. Qed.

Ltac frames :=
  pose proof preserves_upd_in;
  pose proof (preserves_upd_out I local_I);
  pose proof (preserves_upd_EVENTS I local_I);
  pose proof (preserves_effect I local_I);
  pose proof (callHandlersForEvent_local I local_I).

Lemma handleChunkReceived_keeps chunk : preserves I (handleChunkReceived chunk).
Proof. unfold handleChunkReceived. frames. shape. Qed.

Lemma unpackChunk_keeps d : preserves I (_unpackChunk d).
Proof. unfold _unpackChunk. frames. shape. Qed.

Lemma on_keeps event_name handler : preserves I (on event_name handler).
Proof. unfold on, _callHandler. frames. shape. Qed.

Lemma off_keeps event_name handler : preserves I (off event_name handler).
Proof. unfold off. frames. shape. Qed.

Lemma addEventListener_keeps event_name handler :
  preserves I (Pebble_addEventListener event_name handler).
Proof. unfold Pebble_addEventListener. pose proof on_keeps. frames. shape. Qed.

Lemma removeEventListener_keeps event_name handler :
  preserves I (Pebble_removeEventListener event_name handler).
Proof. unfold Pebble_removeEventListener. pose proof off_keeps. frames. shape. Qed.

End ControlOnly.

Section SessionInvariant.
Context `{Runtime}.
Variable versions : jsnumber → Prop.

Let inv := session_invariant_ versions.
Let inv_control : of_control inv := session_invariant_of_control versions.
Let inv_local : local inv := of_control_local _ inv_control.

(** A ResetComplete, validated and answered or not, then [SessionOpen]. *)
Lemma accept_session_invariant d (answer : M unit) w :
  (∀ w0, ∃ w1, answer w0 = (Normal tt, w1) ∧ _control w1 = _control w0) →
  ((_remoteProtocolValidateAndSet (_unpackResetCompleteMessage d) w).1 = Normal true →
   versions (Math_min (ToNumber (elem d 1)) (Number PROTOCOL.max_version))) →
  state (_control w) ≠ ControlStateSessionOpen →
  inv w →
  inv
    ((valid ← _remoteProtocolValidateAndSet (_unpackResetCompleteMessage d);
      if (valid : bool) then answer;; enter ControlStateSessionOpen
      else mret tt) w).2.
Proof.
  intros Hanswer Hversion Hs Hw. cbn.
  destruct (remoteProtocolValidateAndSet_spec (_unpackResetCompleteMessage d) w)
    as [Hv|Hv]; rewrite Hv in Hversion |- *; cbn; [|done].
  match goal with |- context [answer ?w0] =>
    destruct (Hanswer w0) as (w1 & -> & Hc1) end. cbn.
  destruct (enter_open w1) as (w2 & -> & Hc2 & _). cbn.
  unfold inv, session_invariant_. rewrite Hc2, Hc1.
  split; [intros _|done]. cbn.
  split; [by apply Hversion|]. exact (negotiated_range d).
Qed.

Lemma handle_session_invariant payload :
  negotiates versions (AppMessage payload) → preserves inv (handle payload).
Proof.
  intros Hnegotiates w Hw. unfold handle. cbn. unfold ControlHandlers.
  pose proof (enter_closed_session_invariant versions
                ControlStateAwaitingResetCompleteRemoteInitiated) as HRI.
  pose proof (enter_closed_session_invariant versions
                ControlStateAwaitingResetCompleteLocalInitiated) as HLI.
  destruct (state (_control w)) eqn:Hs.
  - done.
  - destruct (payload !! ControlKeyResetComplete) as [d|] eqn:Hd.
    + pose proof (accept_session_invariant d (mret tt) w
                    ltac:(by eauto) (Hnegotiates d w Hd) ltac:(by rewrite Hs) Hw) as Ha.
      cbn in Ha. cbn.
      by destruct (_remoteProtocolValidateAndSet _ w) as [[[]| |] w1].
    + repeat (destruct (has_key _ _)); try (by apply HRI); try (by apply HLI).
      by destruct (payload !! ControlKeyUnsupportedError) as [[]|].
  - destruct (payload !! ControlKeyResetComplete) as [d|] eqn:Hd; [|done].
    assert (∀ w0, ∃ w1, _controlSendResetComplete w0 = (Normal tt, w1)
                        ∧ _control w1 = _control w0) as Hsend.
    { intros w0. unfold _controlSendResetComplete, _sendControlMessage.
      rewrite sendControl_spec. eexists. split; [done|].
      apply sendControl_post_control. }
    pose proof (accept_session_invariant d _controlSendResetComplete w
                  Hsend (Hnegotiates d w Hd) ltac:(by rewrite Hs) Hw) as Ha.
    cbn in Ha. cbn.
    destruct (_remoteProtocolValidateAndSet _ w) as [[[]| |] w1] eqn:Hv; cbn in *;
      try done.
    destruct (remoteProtocolValidateAndSet_spec (_unpackResetCompleteMessage d) w)
      as [Hv'|Hv']; rewrite Hv in Hv'; [done|].
    injection Hv' as ->.
    unfold _controlSendUnsupportedError, _sendControlMessage.
    rewrite sendControl_spec. cbn.
    eapply inv_control; [|exact Hw]. by rewrite sendControl_post_control.
  - destruct (payload !! ControlKeyChunk) as [d|].
    + revert w Hw Hs.
      change (∀ w, inv w → state (_control w) = ControlStateSessionOpen →
                inv
                  ((chunk ← _unpackChunk d;
                    in_sync ← handleChunkReceived chunk;
                    if bool_decide (in_sync = false)
                    then enter ControlStateAwaitingResetCompleteLocalInitiated
                    else mret tt) w).2).
      intros w Hw _. revert w Hw.
      pose proof (unpackChunk_keeps _ inv_control d).
      pose proof (handleChunkReceived_keeps _ inv_control).
      change (preserves inv
                (chunk ← _unpackChunk d;
                 in_sync ← handleChunkReceived chunk;
                 if bool_decide (in_sync = false)
                 then enter ControlStateAwaitingResetCompleteLocalInitiated
                 else mret tt)).
      shape.
    + destruct (has_key _ _); [by apply HRI|by apply HLI].
Qed.

Lemma controlFailure_session_invariant e : preserves inv (_controlFailure e).
Proof.
  unfold _controlFailure.
  pose proof (preserves_upd_out _ inv_local).
  pose proof (preserves_effect _ inv_local).
  pose proof (resetCurrent_local _ inv_local).
  pose proof (sendNext_local _ inv_local).
  pose proof (enter_closed_session_invariant versions ControlStateDisconnected).
  shape.
Qed.

Lemma callback_session_invariant ev :
  negotiates versions ev → preserves inv (callback ev).
Proof.
  intros Hnegotiates.
  unfold callback. destruct ev as [|payload|[]|[] e|[]|o|name h|name h].
  - by apply enter_closed_session_invariant.
  - by apply handle_session_invariant.
  - by apply controlSuccess_local.
  - by apply chunkSuccess_local.
  - apply controlFailure_session_invariant.
  - by apply chunkFailure_local.
  - by apply trySendNextControl_local.
  - by apply trySendNextChunk_local.
  - by apply sendObject_local.
  - by apply addEventListener_keeps.
  - by apply removeEventListener_keeps.
Qed.

Lemma deliver_session_invariant w ev :
  negotiates versions ev → inv w → inv (deliver w ev).
Proof.
  intros Hnegotiates Hw. pose proof (callback_session_invariant ev Hnegotiates w Hw) as Hcb.
  unfold deliver. destruct (callback ev w) as [[[]|e|] w']; cbn in *; done.
Qed.

Lemma run_session_invariant evs w :
  Forall (negotiates versions) evs → inv w → inv (run evs w).
Proof.
  revert w. induction evs as [|ev evs IH]; intros w Hall Hw; [done|].
  apply Forall_cons in Hall as [Hev Hall].
  cbn. by apply IH, deliver_session_invariant.
Qed.

End SessionInvariant.

Section Negotiates.
Context `{Runtime}.

Lemma negotiates_any ev : negotiates (λ _, True) ev.
Proof. by destruct ev. Qed.

Lemma negotiates_numeric ev : numeric_handshake ev → negotiates (λ v, v = Number 1) ev.
Proof.
  destruct ev as [|payload| | | | | |]; try done. cbn.
  intros Hnumeric d w Hd Htrue.
  destruct d as [n|a|s]; [| |by destruct (Hnumeric s)].
  - by destruct (remoteProtocolValidateAndSet_spec (_unpackResetCompleteMessage (InInt n)) w)
      as [Hv|Hv]; rewrite Hv in Htrue.
  - destruct (a !! 1%nat) as [b|] eqn:Hb.
    + change (version (negotiated (_unpackResetCompleteMessage (InBytes a))) = Number 1).
      apply (accepted_numeric_version _ w (byte_to_Z b)); [|done].
      cbn. by rewrite Hb.
    + unfold _remoteProtocolValidateAndSet in Htrue. cbn in Htrue.
      rewrite Hb in Htrue. cbn in Htrue.
      by rewrite orb_true_r in Htrue.
Qed.

End Negotiates.

(** ** The queues under [_sendNext] *)

Section Queues.
Context `{Runtime}.

(** Settle the steps that only write fields a property does not read. *)
Ltac untouched :=
  try (apply preserves_modify; intros ? ?; cbn; done);
  try (apply callHandlersForEvent_preserves; intros ? ? ? ?; cbn; done).

Lemma sendNext__controlQueue fuel q :
  preserves (λ w, controlQueue (_out w) = q) (_sendNext_ fuel).
Proof.
  induction fuel as [|fuel IH]; cbn [_sendNext_];
    unfold _trySendNextChunk_, _chunkFailure_, _completeObject,
      _scheduleAsyncPostMessageError, _resetCurrent, _getNextMessageType,
      _trySendNextControl;
    shape; untouched.
Qed.

Lemma sendNext_controlQueue w :
  controlQueue (_out (_sendNext w).2) = controlQueue (_out w).
Proof. by apply (sendNext__controlQueue 2 (controlQueue (_out w)) w). Qed.


End Queues.

(** ** The reassembly buffer *)

Section Receiver.
Context `{Runtime}.

Lemma data_codes_length d : length (data_codes d) = data_length d.
Proof.
  destruct d as [b|s]; cbn; [done|]. rewrite length_fmap.
  induction s as [|c s IH]; cbn; [done|]. by rewrite IH.
Qed.

(** One call of the chunk handler keeps the invariant of the buffer, and
    keeps the count within the total when a first chunk fits its total. *)
Lemma handleChunkReceived_invariant chunk w :
  let r := _in w in
  let r' := _in (exec (handleChunkReceived chunk) w) in
  receiver_invariant r →
  receiver_invariant r'
  ∧ (first_fits chunk → received_size_bytes r ≤ total_size_bytes r →
     received_size_bytes r' ≤ total_size_bytes r').
Proof.
  destruct w as [o [buf total recv] c ev t]. cbn.
  unfold receiver_invariant. cbn. intros (Hpos & Hle & Heq).
  unfold exec, handleChunkReceived.
  destruct chunk as [[announced d|offset d]|]; cbn; [| |done].
  - case_bool_decide as Hbuf; cbn; [|done].
    apply length_zero_iff_nil in Hbuf. subst buf. cbn.
    case_bool_decide as Hlast; cbn.
    + assert (Z.of_nat (data_length d) = announced) as Hd by lia.
      destruct (zero_terminated d); cbn.
      * destruct (utf8_decode _) as [e|json_string]; cbn.
        { rewrite length_take, data_codes_length. split; [lia|]. intros _ _. lia. }
        destruct (JSON_parse json_string) as [e|[]]; cbn;
          try dispatch_events; cbn; (split; [lia|intros _ _; lia]).
      * split; [lia|intros _ _; lia].
    + rewrite Nat2Z.id, <- data_codes_length, firstn_all, data_codes_length.
      split; [lia|]. intros Hfit _. lia.
  - case_bool_decide as Hbuf; cbn; [done|].
    case_bool_decide as Hoffset; cbn; [done|].
    case_bool_decide as Hover; cbn; [done|].
    case_bool_decide as Hlast; cbn.
    + destruct (zero_terminated d); cbn.
      * destruct (utf8_decode _) as [e|json_string]; cbn.
        { rewrite length_app, length_take, data_codes_length.
          split; [lia|]. intros _ _. lia. }
        destruct (JSON_parse json_string) as [e|[]]; cbn;
          try dispatch_events; cbn; (split; [lia|intros _ _; lia]).
      * split; [lia|intros _ _; lia].
    + rewrite Nat2Z.id, <- data_codes_length, firstn_all, length_app, data_codes_length.
      split; [lia|]. intros _ _. lia.
Qed.

Lemma receive_invariant chunks w :
  receiver_invariant (_in w) →
  receiver_invariant (_in (receive chunks w))
  ∧ (Forall first_fits chunks →
     received_size_bytes (_in w) ≤ total_size_bytes (_in w) →
     received_size_bytes (_in (receive chunks w))
       ≤ total_size_bytes (_in (receive chunks w))).
Proof.
  revert w. induction chunks as [|chunk chunks IH]; intros w Hw; [done|].
  cbn. destruct (handleChunkReceived_invariant chunk w Hw) as [Hw' Hfit].
  destruct (IH _ Hw') as [Hinv Hbound]. split; [exact Hinv|].
  intros Hall Hle. apply Forall_cons in Hall as [Hc Hall]. auto.
Qed.

End Receiver.

(** ** The dictionaries handed to the transport *)

Section Wire.
Context `{Runtime}.

Lemma wire_message_singleton key value : key ∈ wire_keys → wire_message {[ key := value ]}.
Proof. intros Hkey. by exists key, value. Qed.

Lemma wire_effect e :
  (∀ msg callbacks, e = sendAppMessage (Some msg) callbacks → wire_message msg) →
  preserves wire_invariant (effect e).
Proof.
  intros He w [Hq Ht]. split; [exact Hq|]. cbn. intros msg cb Hin.
  apply elem_of_app in Hin as [Hin|Hin]; [by eapply Ht|].
  apply list_elem_of_singleton in Hin. by eapply He.
Qed.

Lemma wire_upd_out f :
  (∀ s, Forall wire_message (controlQueue s) → Forall wire_message (controlQueue (f s))) →
  preserves wire_invariant (modify (upd_out f)).
Proof. intros Hf w [Hq Ht]. split; [by apply Hf|exact Ht]. Qed.

Lemma wire_upd_in f : preserves wire_invariant (modify (upd_in f)).
Proof. by intros w Hw. Qed.

Lemma wire_upd_control f : preserves wire_invariant (modify (upd_control f)).
Proof. by intros w Hw. Qed.

Lemma wire_upd_EVENTS f : preserves wire_invariant (modify (upd_EVENTS f)).
Proof. by intros w Hw. Qed.

Lemma wire_callHandlersForEvent event_name callback_data :
  preserves wire_invariant (_callHandlersForEvent event_name callback_data).
Proof.
  intros w [Hq Ht].
  destruct (callHandlersForEvent_spec event_name callback_data w) as (ev & -> & _).
  split; [exact Hq|]. cbn. intros msg cb Hin.
  apply elem_of_app in Hin as [Hin|Hin]; [by eapply Ht|].
  unfold notification in Hin. apply elem_of_cons in Hin as [Hin|Hin]; [done|].
  apply list_elem_of_fmap in Hin as (id & Hid & _). done.
Qed.

(** The control message sent is the head of the queue. *)
Lemma wire_trySendNextControl : preserves wire_invariant _trySendNextControl.
Proof.
  intros w [Hq Ht]. unfold _trySendNextControl. cbn. split; [exact Hq|].
  intros msg cb Hin. apply elem_of_app in Hin as [Hin|Hin]; [by eapply Ht|].
  apply list_elem_of_singleton in Hin. injection Hin as Hhead _.
  destruct (controlQueue (_out w)) as [|m q]; [done|].
  cbn in Hhead. injection Hhead as <-. by apply Forall_cons in Hq as [Hm _].
Qed.

(** Settle the steps of a computation one by one. *)
Ltac wire_steps :=
  shape;
  try first
    [ apply wire_trySendNextControl
    | apply wire_callHandlersForEvent
    | apply wire_upd_in
    | apply wire_upd_control
    | apply wire_upd_EVENTS
    | apply wire_upd_out; intros s Hs; cbn;
      first [ exact Hs
            | destruct (controlQueue s); [done|by apply Forall_cons in Hs as [_ Hs]]
            | apply Forall_app; split; [exact Hs|];
              apply Forall_singleton, wire_message_singleton;
              unfold wire_keys; set_solver ]
    | apply wire_effect; intros msg cb [= <- <-] || (intros msg cb Heq; discriminate Heq);
      apply wire_message_singleton; unfold wire_keys; set_solver
    | assumption ].

Lemma wire_sendNext_ fuel : preserves wire_invariant (_sendNext_ fuel).
Proof.
  induction fuel as [|fuel IH]; cbn [_sendNext_];
    unfold _trySendNextChunk_, _chunkFailure_, _completeObject,
      _scheduleAsyncPostMessageError, _resetCurrent, _getNextMessageType;
    wire_steps.
Qed.

Lemma wire_callback ev : preserves wire_invariant (callback ev).
Proof.
  pose proof (wire_sendNext_ 2) as Hnext. change (_sendNext_ 2) with _sendNext in Hnext.
  unfold callback, _controlFailure, handle, ControlHandlers, enter, ControlTransitions,
    _controlSendResetComplete, _controlSendResetRequest, _controlSendUnsupportedError,
    _sendControlMessage, sendControl, resetProtocol, set_state,
    _remoteProtocolValidateAndSet, _unpackChunk, handleChunkReceived,
    _controlSuccess, _chunkSuccess, _controlFailure, _chunkFailure, _trySendNextChunk,
    _trySendNextChunk_, _chunkFailure_, _completeObject,
    _scheduleAsyncPostMessageError, _resetCurrent, _getNextMessageType,
    Pebble_postMessage, sendObject, _createDataObject,
    Pebble_addEventListener, Pebble_removeEventListener, on, off, _callHandler.
  wire_steps.
Qed.

Lemma wire_run evs w : wire_invariant w → wire_invariant (run evs w).
Proof.
  revert w. induction evs as [|ev evs IH]; intros w Hw; [done|].
  cbn. apply IH. pose proof (wire_callback ev w Hw) as Hcb.
  unfold deliver. destruct (callback ev w) as [[[]|e|] w']; cbn in *; try done.
  destruct Hcb as [Hq Ht]. split; [exact Hq|]. cbn. intros msg cb Hin.
  apply elem_of_app in Hin as [Hin|Hin]; [by eapply Ht|].
  by apply list_elem_of_singleton in Hin.
Qed.

(** The handlers read a payload at the four keys only. *)
Lemma ControlHandlers_reads_wire_keys s p p' :
  same_wire_entries p p' → ControlHandlers s p = ControlHandlers s p'.
Proof.
  intros Hsame. unfold ControlHandlers, has_key.
  rewrite (Hsame ControlKeyResetRequest), (Hsame ControlKeyResetComplete),
    (Hsame ControlKeyChunk), (Hsame ControlKeyUnsupportedError)
    by (unfold wire_keys; set_solver).
  done.
Qed.

End Wire.

(** ** Every callback ends *)

Section CallbacksEnd.
Context `{Runtime}.

Lemma callback_ends ev : ends (callback ev).
Proof.
  pose proof sendNext_ends. pose proof trySendNextChunk_ends.
  pose proof chunkFailure_ends. pose proof chunkSuccess_ends.
  pose proof controlSuccess_ends. pose proof sendControl_ends.
  pose proof sendObject_ends. pose proof callHandlersForEvent_ends.
  unfold callback, _controlFailure, handle, ControlHandlers, enter, ControlTransitions,
    _controlSendResetComplete, _controlSendResetRequest, _controlSendUnsupportedError,
    _sendControlMessage, resetProtocol, set_state,
    _remoteProtocolValidateAndSet, _unpackChunk, handleChunkReceived,
    _resetCurrent, _trySendNextControl, Pebble_postMessage,
    Pebble_addEventListener, Pebble_removeEventListener, on, off, _callHandler.
  shape.
Qed.

End CallbacksEnd.

(** ** The bytes of a chunk *)

Section Header.

Lemma lor_disjoint (hi lo k : Z) :
  0 ≤ k → 0 ≤ hi → 0 ≤ lo < 2 ^ k → Z.lor (hi * 2 ^ k) lo = hi * 2 ^ k + lo.
Proof.
  intros Hk Hhi Hlo.
  assert (Z.land (hi * 2 ^ k) lo = 0) as Hland.
  { apply Z.bits_inj'. intros i Hi. rewrite Z.land_spec, Z.bits_0.
    destruct (decide (i < k)) as [Hlt|Hge].
    - rewrite Z.mul_pow2_bits_low by lia. done.
    - assert (Z.testbit lo i = false) as ->; [|apply andb_false_r].
      apply Z.testbit_false; [lia|].
      rewrite Z.div_small; [done|]. split; [lia|].
      apply Z.lt_le_trans with (2 ^ k); [lia|].
      apply Z.pow_le_mono_r; lia. }
  pose proof (Z.add_lor_land (hi * 2 ^ k) lo). lia.
Qed.

Lemma js_shl_1_7 : js_shl 1 7 = 128.
Proof. reflexivity. Qed.

(** The bits of the most significant byte: seven of the number, and the
    flag. *)
Lemma flag_bits (hi : Z) :
  0 ≤ hi < 128 →
  Z.land hi (-129) = hi ∧ Z.lor hi 128 = hi + 128 ∧ Z.lor hi 0 = hi
  ∧ Z.land (hi + 128) 128 = 128 ∧ Z.land hi 128 = 0
  ∧ Z.land (-129) (hi + 128) = hi ∧ Z.land (-129) hi = hi.
Proof.
  intros Hhi.
  assert (Forall (λ hi, Z.land hi (-129) = hi ∧ Z.lor hi 128 = hi + 128 ∧ Z.lor hi 0 = hi
                        ∧ Z.land (hi + 128) 128 = 128 ∧ Z.land hi 128 = 0
                        ∧ Z.land (-129) (hi + 128) = hi ∧ Z.land (-129) hi = hi)
                 (seqZ 0 128)) as Hall.
  { refine (bool_decide_unpack _ _). vm_compute. exact I. }
  rewrite Forall_forall in Hall. apply Hall. apply elem_of_seqZ. lia.
Qed.

(** The four bytes of the header, in arithmetic. *)
Lemma chunk_header_bytes (n : Z) (isFirst : bool) :
  0 ≤ n < 2 ^ 31 →
  chunk_header n isFirst =
    [ n mod 256; (n / 2 ^ 8) mod 256; (n / 2 ^ 16) mod 256;
      n / 2 ^ 24 + (if isFirst then 128 else 0) ].
Proof.
  intros Hn. unfold chunk_header, js_and, js_sar, js_or, js_not.
  rewrite js_shl_1_7.
  change (Z.land 8 31) with 8. change (Z.land 16 31) with 16.
  change (Z.land 24 31) with 24.
  rewrite (ToInt32_small n) by lia.
  rewrite (ToInt32_small 255), (ToInt32_small 128) by lia.
  rewrite !Z.shiftr_div_pow2 by lia.
  assert (0 ≤ n / 2 ^ 8 < 2 ^ 23) by (split; [apply Z.div_pos|apply Z.div_lt_upper_bound]; lia).
  assert (0 ≤ n / 2 ^ 16 < 2 ^ 15) by (split; [apply Z.div_pos|apply Z.div_lt_upper_bound]; lia).
  assert (0 ≤ n / 2 ^ 24 < 128) as Hhi
    by (split; [apply Z.div_pos|apply Z.div_lt_upper_bound]; lia).
  rewrite !(ToInt32_small (n / _)) by lia.
  change 255 with (Z.ones 8). rewrite !Z.land_ones by lia.
  change (2 ^ 8) with 256 at 1 3 5.
  change (Z.lnot 128) with (-129).
  rewrite (ToInt32_small (-129)) by lia.
  destruct (flag_bits _ Hhi) as (-> & Hor & Hor0 & _).
  rewrite (ToInt32_small (n / 2 ^ 24)) by lia.
  destruct isFirst.
  - rewrite (ToInt32_small 128) by lia. by rewrite Hor.
  - rewrite (ToInt32_small 0) by lia. rewrite Hor0. by rewrite Z.add_0_r.
Qed.

(** The number the receiver reads in four bytes whose last holds less
    than 128. *)
Lemma num31bits_sum (b0 b1 b2 hi : Z) :
  0 ≤ b0 < 256 → 0 ≤ b1 < 256 → 0 ≤ b2 < 256 → 0 ≤ hi < 128 →
  js_or (js_or (js_or (js_shl hi 24) (js_shl b2 16)) (js_shl b1 8)) b0
  = hi * 2 ^ 24 + b2 * 2 ^ 16 + b1 * 2 ^ 8 + b0.
Proof.
  intros H0 H1 H2 Hhi. unfold js_or, js_shl.
  change (Z.land 8 31) with 8. change (Z.land 16 31) with 16.
  change (Z.land 24 31) with 24.
  rewrite !Z.shiftl_mul_pow2 by lia.
  rewrite (ToInt32_small hi), (ToInt32_small b2), (ToInt32_small b1),
    (ToInt32_small b0) by lia.
  rewrite !(ToInt32_small (_ * _)) by lia.
  rewrite (lor_disjoint hi (b2 * 2 ^ 16) 24) by lia.
  rewrite (ToInt32_small (_ + _)) by lia.
  replace (hi * 2 ^ 24 + b2 * 2 ^ 16) with ((hi * 2 ^ 8 + b2) * 2 ^ 16) by lia.
  rewrite (lor_disjoint _ (b1 * 2 ^ 8) 16) by lia.
  rewrite (ToInt32_small (_ + _)) by lia.
  replace ((hi * 2 ^ 8 + b2) * 2 ^ 16 + b1 * 2 ^ 8)
    with ((hi * 2 ^ 16 + b2 * 2 ^ 8 + b1) * 2 ^ 8) by lia.
  rewrite lor_disjoint by lia. lia.
Qed.

Lemma byte_to_Z_inj (a b : byte) : byte_to_Z a = byte_to_Z b → a = b.
Proof.
  unfold byte_to_Z. intros Hab.
  assert (Byte.to_N a = Byte.to_N b) as Heq by lia.
  apply (f_equal Byte.of_N) in Heq. rewrite !Byte.of_to_N in Heq. congruence.
Qed.

Lemma byte_to_Z_fmap_inj (a b : list byte) :
  byte_to_Z <$> a = byte_to_Z <$> b → a = b.
Proof.
  revert b. induction a as [|x a IH]; intros [|y b] Hab; try done.
  cbn in Hab. injection Hab as Hxy Hab.
  f_equal; [by apply byte_to_Z_inj|by apply IH].
Qed.

Lemma js_slice_piece (bytes : list byte) (offset tx : Z) :
  0 ≤ offset → 0 ≤ tx →
  js_slice bytes offset (offset + Z.min tx (Z.of_nat (length bytes) - offset))
  = take (Z.to_nat tx) (drop (Z.to_nat offset) bytes).
Proof.
  intros Hoff Htx. unfold js_slice.
  destruct (decide (offset ≤ Z.of_nat (length bytes))) as [Hle|Hgt].
  - rewrite (proj2 (Z.ltb_ge _ _)) by lia.
    rewrite (proj2 (Z.ltb_ge _ _)) by lia.
    rewrite Z.min_l by lia.
    destruct (decide (tx ≤ Z.of_nat (length bytes) - offset)).
    + rewrite Z.min_l by lia. rewrite Z.min_l by lia. f_equal. lia.
    + rewrite (Z.min_r tx) by lia. rewrite Z.min_l by lia.
      rewrite !take_ge; [done| |]; rewrite length_drop; lia.
  - rewrite (proj2 (Z.ltb_ge _ _)) by lia.
    rewrite (proj2 (Z.ltb_ge _ _)) by lia.
    rewrite (drop_ge bytes (Z.to_nat offset)) by lia.
    rewrite (drop_ge bytes (Z.to_nat _)) by lia. by rewrite !take_nil.
Qed.

End Header.

(** * The claims

    Each claim has its theorem, stated for every [Runtime]; the concrete runs
    that go with it use the runtime of [Host]. *)

(** ** C1 *)

(** C1 (amended): the four key strings are [ControlKeyResetRequest],
    [ControlKeyResetComplete], [ControlKeyChunk] and
    [ControlKeyUnsupportedError].  Every dictionary the module hands to the
    transport, in any run from the initial state, has exactly one entry,
    under one of them; the handlers of inbound payloads read a payload at
    these four keys and nowhere else; and the dictionary handed to the
    transport after [ready] is [{ControlKeyResetRequest: 0}]. *)
Theorem C1_wire_keys `{Runtime} :
  wire_keys = ["ControlKeyResetRequest"; "ControlKeyResetComplete";
               "ControlKeyChunk"; "ControlKeyUnsupportedError"]
  ∧ (∀ evs msg callbacks,
       sendAppMessage (Some msg) callbacks ∈ trace (run evs initial) →
       wire_message msg)
  ∧ (∀ s p p', same_wire_entries p p' → ControlHandlers s p = ControlHandlers s p')
  ∧ trace (run [Ready] initial) =
      [sendAppMessage (Some {[ "ControlKeyResetRequest" := OutInt 0 ]}) MsgControl].
Proof.
  split; [reflexivity|]. split; [|split].
  - intros evs msg cb Hin.
    assert (wire_invariant initial) as Hinit.
    { split; [by apply Forall_nil|]. cbn. intros ? ? Hnil. by apply elem_of_nil in Hnil. }
    destruct (wire_run evs initial Hinit) as [_ Ht]. by eapply Ht.
  - apply ControlHandlers_reads_wire_keys.
  - vm_compute. reflexivity.
Qed.

Section C1_scenario.
#[local] Existing Instance Host.runtime.

(** C1, as stated, fails: the dictionary handed to the transport after
    [ready] has the key [ControlKeyResetRequest], not [ResetRequest]; and a
    ResetComplete under the key [ResetComplete] is not recognized (Control
    stays in the local-initiated reset), while the same bytes under
    [ControlKeyResetComplete] open the session. *)
Lemma C1_keys_carry_the_ControlKey_prefix :
  trace (run [Ready] initial) =
    [sendAppMessage (Some {[ "ControlKeyResetRequest" := OutInt 0 ]}) MsgControl]
  ∧ trace (run [Ready] initial) ≠
      [sendAppMessage (Some {[ "ResetRequest" := OutInt 0 ]}) MsgControl]
  ∧ state (_control (run [Ready;
             AppMessage {[ "ResetComplete" := InBytes [x01; x01; x03; xe8; x03; xe8] ]}]
             initial)) = ControlStateAwaitingResetCompleteLocalInitiated
  ∧ state (_control (run [Ready;
             AppMessage {[ "ControlKeyResetComplete" :=
                             InBytes [x01; x01; x03; xe8; x03; xe8] ]}]
             initial)) = ControlStateSessionOpen.
Proof. by_evaluation. Qed.

End C1_scenario.

(** ** C2 *)

(** C2 (amended): at every state the module reaches from its initial state,
    by any sequence of events of the host, in [SessionOpen] both chunk sizes
    lie between 0 and 1000 (0 when the remote advertises 0), and in every
    other state all three parameters are 0; and as long as no ResetComplete
    the transport delivered was a string, the negotiated version is 1 in
    [SessionOpen]. *)
Theorem C2_session_parameters `{Runtime} (evs : list HostEvent) :
  session_invariant (run evs initial)
  ∧ (Forall numeric_handshake evs → numeric_session_invariant (run evs initial)).
Proof.
  split.
  - apply run_session_invariant.
    + apply Forall_forall. intros ev _. apply negotiates_any.
    + unfold session_invariant_. cbn. split; [done|by intros _].
  - intros Hnumeric. apply run_session_invariant.
    + eapply Forall_impl; [exact Hnumeric|]. apply negotiates_numeric.
    + unfold session_invariant_. cbn. split; [done|by intros _].
Qed.

Section C2_scenario.
#[local] Existing Instance Host.runtime.

(** C2, as stated, fails: after [ready], a ResetComplete for version 1 that
    advertises chunk sizes of 0 opens the session with [tx_chunk_size] and
    [rx_chunk_size] equal to 0. *)
Lemma C2_zero_chunk_sizes_open_session :
  let w := run [Ready; AppMessage ResetComplete_zero_sizes] initial in
  state (_control w) = ControlStateSessionOpen
  ∧ tx_chunk_size (protocol (_control w)) = 0
  ∧ rx_chunk_size (protocol (_control w)) = 0
  ∧ ¬ positive_session_invariant w.
Proof.
  cbv zeta.
  assert (_control (run [Ready; AppMessage ResetComplete_zero_sizes] initial) =
          {| state := ControlStateSessionOpen;
             protocol := {| version := Number 1; tx_chunk_size := 0;
                            rx_chunk_size := 0 |} |})
    as Hc by (vm_compute; reflexivity).
  unfold positive_session_invariant. rewrite Hc. cbn.
  repeat split; try done. intros [Hopen _]. specialize (Hopen eq_refl). lia.
Qed.

Lemma C2_witness :
  numeric_session_invariant (run [Ready; AppMessage ResetComplete_1000] initial).
Proof.
  apply (proj2 (C2_session_parameters [Ready; AppMessage ResetComplete_1000])).
  repeat constructor. intros s. unfold ResetComplete_1000.
  rewrite lookup_singleton_eq. discriminate.
Defined.

(** What the amended C2 leaves out: a ResetComplete that is a string.  Its
    characters are compared as numbers; two characters that are no digits
    are [NaN], no comparison with [NaN] holds, so the remote is accepted,
    and the version of the session is [NaN]. *)
Lemma string_ResetComplete_opens_session :
  let soh := Ascii.ascii_of_nat 1 in
  let w := run [Ready;
                AppMessage {[ ControlKeyResetComplete :=
                                InString (String soh (String soh EmptyString)) ]}]
             initial in
  state (_control w) = ControlStateSessionOpen
  ∧ version (protocol (_control w)) = NaN
  ∧ tx_chunk_size (protocol (_control w)) = 0
  ∧ rx_chunk_size (protocol (_control w)) = 0.
Proof. by_evaluation. Qed.

End C2_scenario.

(** ** C3 *)

(** C3 (amended): a payload received in [SessionOpen] that holds neither a
    Chunk nor a ResetRequest, so in particular one whose key is
    ResetComplete, makes Control enter the local-initiated reset: a
    ResetRequest joins [controlQueue] (and goes to the transport when nothing
    is in flight), the negotiated parameters are reset to 0, the state is
    [ControlStateAwaitingResetCompleteLocalInitiated], and the listeners of
    [postmessagedisconnected] are called. *)
Theorem C3_other_key_in_SessionOpen_resets `{Runtime} (w : World) (payload : Payload) :
  state (_control w) = ControlStateSessionOpen →
  payload !! ControlKeyChunk = None →
  payload !! ControlKeyResetRequest = None →
  let queued := sendControl_post ResetRequestMessage w in
  ∃ ev,
    handle payload w =
      (Normal tt,
       {| _out := _out queued;
          _in := _in w;
          _control := {| state := ControlStateAwaitingResetCompleteLocalInitiated;
                         protocol := no_protocol |};
          EVENTS := ev;
          trace := trace queued ++ notification "postmessagedisconnected" None w |})
    ∧ controlQueue (_out queued) = controlQueue (_out w) ++ [ResetRequestMessage]
    ∧ ∀ k, handlers <$> ev !! k = handlers <$> EVENTS w !! k.
Proof.
  intros Hopen Hchunk Hreq queued.
  destruct (enter_LI_from_open w Hopen) as (ev & Henter & Hev).
  exists ev. split; [|split; [apply sendControl_post_queue|exact Hev]].
  unfold handle. cbn. rewrite Hopen. unfold ControlHandlers, has_key.
  rewrite Hchunk, Hreq. rewrite bool_decide_false by (by intros []).
  exact Henter.
Qed.

Section C3_scenario.
#[local] Existing Instance Host.runtime.

(** C3, as stated, fails: in the open session of scenario S1 a ResetComplete
    does not leave the module idle.  Control leaves [SessionOpen], a
    ResetRequest is queued and sent, and [postmessagedisconnected] is
    dispatched. *)
Lemma C3_ResetComplete_leaves_SessionOpen :
  let w' := exec (handle ResetComplete_1000) session_open_world in
  state (_control session_open_world) = ControlStateSessionOpen
  ∧ state (_control w') ≠ ControlStateSessionOpen
  ∧ controlQueue (_out session_open_world) = []
  ∧ controlQueue (_out w') = [ResetRequestMessage]
  ∧ fresh_trace session_open_world w' =
      [sendAppMessage (Some ResetRequestMessage) MsgControl;
       dispatchEvent "postmessagedisconnected" None].
Proof. by_evaluation. Qed.

Lemma C3_witness :
  state (_control (exec (handle ResetComplete_1000) session_open_world)) =
    ControlStateAwaitingResetCompleteLocalInitiated.
Proof.
  destruct (C3_other_key_in_SessionOpen_resets session_open_world ResetComplete_1000
              ltac:(vm_compute; reflexivity) ltac:(vm_compute; reflexivity)
              ltac:(vm_compute; reflexivity)) as (ev & Hhandle & _).
  unfold exec. rewrite Hhandle. reflexivity.
Defined.

End C3_scenario.

(** ** C4 *)

(** C4 (the code against the claim): when the send of the control message
    in flight fails with [_failureCount] at 3, [_controlFailure] pops the
    message, clears the in-flight state, calls [enter(ControlStateDisconnected)],
    whose transition resets the negotiated parameters to 0, and runs
    [_sendNext].  The state [_control.state] holds afterwards is
    [ControlStateAwaitingResetCompleteRemoteInitiated], not
    [ControlStateDisconnected]: the transition stores the wrong constant. *)
Theorem C4_fourth_control_failure `{Runtime}
    (w : World) (msg : Message) (rest : list Message) (e : string) :
  controlQueue (_out w) = msg :: rest →
  _failureCount (_out w) = 3 →
  ∃ ev,
    let entered :=
      {| _out := {| controlQueue := rest; objectQueue := objectQueue (_out w);
                    _currentMessageType := None; _failureCount := 0;
                    _offsetBytes := 0; _chunkPayloadSize := 0 |};
         _in := _in w;
         _control := {| state := ControlStateAwaitingResetCompleteRemoteInitiated;
                        protocol := no_protocol |};
         EVENTS := ev;
         trace := trace w ++
                  (if bool_decide (state (_control w) = ControlStateSessionOpen)
                   then notification "postmessagedisconnected" None w else []) |} in
    _controlFailure e w = _sendNext entered
    ∧ (∀ k, handlers <$> ev !! k = handlers <$> EVENTS w !! k)
    ∧ (_controlFailure e w).1 ≠ Exhausted
    ∧ controlQueue (_out (exec (_controlFailure e) w)) = rest
    ∧ _control (exec (_controlFailure e) w) =
        {| state := ControlStateAwaitingResetCompleteRemoteInitiated;
           protocol := no_protocol |}
    ∧ state (_control (exec (_controlFailure e) w)) ≠ ControlStateDisconnected.
Proof.
  intros Hq Hfc.
  assert (∃ ev,
    _controlFailure e w = _sendNext
      {| _out := {| controlQueue := rest; objectQueue := objectQueue (_out w);
                    _currentMessageType := None; _failureCount := 0;
                    _offsetBytes := 0; _chunkPayloadSize := 0 |};
         _in := _in w;
         _control := {| state := ControlStateAwaitingResetCompleteRemoteInitiated;
                        protocol := no_protocol |};
         EVENTS := ev;
         trace := trace w ++
                  (if bool_decide (state (_control w) = ControlStateSessionOpen)
                   then notification "postmessagedisconnected" None w else []) |}
    ∧ (∀ k, handlers <$> ev !! k = handlers <$> EVENTS w !! k)) as (ev & Hrun & Hev).
  { unfold _controlFailure, _resetCurrent, enter, ControlTransitions, resetProtocol,
      set_state. mrun.
    case_bool_decide; cbn.
    - dispatch_events. exists ev. split; [done|].
      intros k. by rewrite Hev.
    - exists (EVENTS w). by rewrite app_nil_r. }
  exists ev. cbv zeta. split; [exact Hrun|]. split; [exact Hev|].
  unfold exec. rewrite Hrun.
  split; [apply sendNext_ends|].
  split; [by rewrite sendNext_controlQueue|].
  assert (_control (_sendNext
      {| _out := {| controlQueue := rest; objectQueue := objectQueue (_out w);
                    _currentMessageType := None; _failureCount := 0;
                    _offsetBytes := 0; _chunkPayloadSize := 0 |};
         _in := _in w;
         _control := {| state := ControlStateAwaitingResetCompleteRemoteInitiated;
                        protocol := no_protocol |};
         EVENTS := ev;
         trace := trace w ++
                  (if bool_decide (state (_control w) = ControlStateSessionOpen)
                   then notification "postmessagedisconnected" None w else []) |}).2 =
          {| state := ControlStateAwaitingResetCompleteRemoteInitiated;
             protocol := no_protocol |}) as Hc.
  { apply (sendNext_local (λ w', _control w' = _)); [|done].
    intros w1 w2 Hc _. by rewrite Hc. }
  split; [exact Hc|]. by rewrite Hc.
Qed.

Section C4_scenario.
#[local] Existing Instance Host.runtime.

Lemma C4_witness :
  state (_control (exec (_controlFailure "timeout") thrice_failed_control_world)) =
    ControlStateAwaitingResetCompleteRemoteInitiated
  ∧ controlQueue (_out (exec (_controlFailure "timeout") thrice_failed_control_world)) = [].
Proof.
  destruct (C4_fourth_control_failure thrice_failed_control_world
              ResetRequestMessage [] "timeout"
              ltac:(vm_compute; reflexivity) ltac:(vm_compute; reflexivity))
    as (ev & _ & _ & _ & Hqueue & Hcontrol & _).
  split; [by rewrite Hcontrol|exact Hqueue].
Defined.

End C4_scenario.

(** ** C5 *)


Section C5_scenario.
#[local] Existing Instance Host.runtime.



End C5_scenario.

(** ** C6 *)

(** C6 (amended): after every call of the chunk handler, on any sequence of
    chunks from the initial state, [received_size_bytes] is not negative and
    the buffer is no longer than it, and the two agree as long as
    [received_size_bytes] differs from [total_size_bytes] (when a message
    has just been completed the count equals the total and the buffer has
    been emptied).  The count stays within the total provided no first chunk
    carried more bytes than the total it announced. *)
Theorem C6_reassembly_buffer `{Runtime} (chunks : list (option Chunk)) :
  let r := _in (receive chunks initial) in
  receiver_invariant r
  ∧ (Forall first_fits chunks → received_size_bytes r ≤ total_size_bytes r).
Proof.
  cbv zeta.
  assert (receiver_invariant (_in initial)) as Hinit.
  { unfold receiver_invariant. cbn. lia. }
  destruct (receive_invariant chunks initial Hinit) as [Hinv Hbound].
  split; [exact Hinv|]. intros Hall. by apply Hbound.
Qed.

Section C6_scenario.
#[local] Existing Instance Host.runtime.

(** C6, as stated, fails: after the single chunk of the message [1] (the
    digit and the terminator, total 2), which is reassembled and dispatched,
    [received_size_bytes] is 2 and the buffer is empty. *)
Lemma C6_count_outlives_buffer :
  let w := receive [Some (FirstChunk 2 (Bytes [x31; x00]))] initial in
  fresh_trace initial w = [dispatchEvent "message" (Some (JNumber 1))]
  ∧ received_size_bytes (_in w) = 2
  ∧ utf8_json_string (_in w) = []
  ∧ ¬ strict_receiver_invariant (_in w).
Proof.
  cbv zeta.
  assert (_in (receive [Some (FirstChunk 2 (Bytes [x31; x00]))] initial) =
          {| utf8_json_string := []; total_size_bytes := 2; received_size_bytes := 2 |})
    as Hin by (vm_compute; reflexivity).
  rewrite Hin. split; [vm_compute; reflexivity|]. split; [done|]. split; [done|].
  unfold strict_receiver_invariant. cbn. lia.
Qed.

Lemma C6_witness :
  received_size_bytes
    (_in (receive [Some (FirstChunk 3 (Bytes [x31]));
                   Some (NextChunk 1 (Bytes [x32; x00]))] initial))
  ≤ total_size_bytes
      (_in (receive [Some (FirstChunk 3 (Bytes [x31]));
                     Some (NextChunk 1 (Bytes [x32; x00]))] initial)).
Proof.
  apply (C6_reassembly_buffer
           [Some (FirstChunk 3 (Bytes [x31])); Some (NextChunk 1 (Bytes [x32; x00]))]).
  repeat constructor; cbn; lia.
Defined.

(** What the amended C6 leaves out: a first chunk longer than the total it
    announces is accepted, and the count then exceeds the total. *)
Lemma oversized_first_chunk_exceeds_total :
  let r := _in (receive [Some (FirstChunk 1 (Bytes [x31; x32; x33]))] initial) in
  received_size_bytes r = 3 ∧ total_size_bytes r = 1
  ∧ utf8_json_string r = [x31; x32; x33].
Proof. by_evaluation. Qed.

End C6_scenario.

(** ** C7 *)


Section C7_scenario.
#[local] Existing Instance Host.runtime.



End C7_scenario.

(** ** C8 *)

(** C8 (amended): a first chunk whose payload is the 0x00 terminator alone,
    with the total it announces equal to 1 (the total counts the
    terminator), received with an empty buffer, is a last chunk: the empty
    string is decoded, [JSON.parse] fails on it, the failure is logged, no
    [message] event is dispatched and the buffer is left empty. *)
Theorem C8_terminator_only_first_chunk `{Runtime} (w : World) (e : Exception) :
  utf8_json_string (_in w) = [] →
  utf8_decode [] = inr "" →
  JSON_parse "" = inl e →
  handleChunkReceived (Some (FirstChunk 1 (Bytes [x00]))) w =
    (Normal true,
     {| _out := _out w;
        _in := {| utf8_json_string := []; total_size_bytes := 1;
                  received_size_bytes := 1 |};
        _control := _control w;
        EVENTS := EVENTS w;
        trace := trace w ++
          [console_error ("Dropping message, failed to parse JSON with error: " +:+
                          exn_to_string e +:+ " (json_string=" +:+ "" +:+ ")")] |}).
Proof.
  intros Hbuf Hdecode Hparse.
  unfold handleChunkReceived. mrun.
  change (Z.to_nat (Z.of_nat 1 - 1)) with 0%nat. mrun. done.
Qed.

Section C8_scenario.
#[local] Existing Instance Host.runtime.

(** C8, as stated, fails: the chunk with header [0, 0, 0, 0x80] and payload
    [0] unpacks to a first chunk with total 0, and the handler, called with
    an empty buffer, keeps its byte in the buffer: nothing is decoded or
    logged, and the buffer is not cleared. *)
Lemma C8_total_zero_is_not_last :
  let w := exec (handleChunkReceived (Some (FirstChunk 0 (Bytes [x00])))) initial in
  _unpackChunk (InBytes [x00; x00; x00; x80; x00]) initial =
    (Normal (Some (FirstChunk 0 (Bytes [x00]))), initial)
  ∧ utf8_json_string (_in initial) = []
  ∧ utf8_json_string (_in w) = [x00]
  ∧ utf8_json_string (_in w) ≠ []
  ∧ trace w = [].
Proof. by_evaluation. Qed.

Lemma C8_witness :
  utf8_json_string
    (_in (exec (handleChunkReceived (Some (FirstChunk 1 (Bytes [x00])))) initial)) = []
  ∧ trace (exec (handleChunkReceived (Some (FirstChunk 1 (Bytes [x00])))) initial) =
      [console_error
         ("Dropping message, failed to parse JSON with error: " +:+
          exn_to_string (JSError "SyntaxError" "Unexpected token in JSON") +:+
          " (json_string=" +:+ "" +:+ ")")].
Proof.
  unfold exec.
  rewrite (C8_terminator_only_first_chunk initial
             (JSError "SyntaxError" "Unexpected token in JSON")
             ltac:(reflexivity) ltac:(vm_compute; reflexivity)
             ltac:(vm_compute; reflexivity)).
  split; reflexivity.
Defined.

End C8_scenario.

(** ** C9 *)

(** C9 (amended): [Pebble.addEventListener] hands the call to the native
    listener API, with the same name and handler, for every event name that
    is none of [message], [postmessageerror], [postmessageconnected],
    [postmessagedisconnected] and is not [appmessage]; for [appmessage] it
    throws and registers nothing. *)
Theorem C9_other_events_are_forwarded `{Runtime}
    (event_name : string) (handler : Handler) (w : World) :
  (event_name ∉ ["message"; "postmessageerror"; "postmessageconnected";
                 "postmessagedisconnected"] →
   event_name ≠ "appmessage" →
   Pebble_addEventListener event_name handler w =
     (Normal tt, upd_trace (λ t, t ++ [native_addEventListener event_name handler]) w))
  ∧ Pebble_addEventListener "appmessage" handler w =
      (Throw (JSError "Error"
                "App Message not supported with Rocky.js apps. See Pebble.postMessage()"),
       w).
Proof.
  split.
  - intros Hown Happ. unfold Pebble_addEventListener, _isPostMessageEvent.
    rewrite bool_decide_false by done. rewrite bool_decide_false by done. done.
  - vm_compute. reflexivity.
Qed.

Section C9_scenario.
#[local] Existing Instance Host.runtime.

(** C9, as stated, fails at [appmessage]: the call throws, and the native
    listener API is not called. *)
Lemma C9_appmessage_is_refused :
  Pebble_addEventListener "appmessage" (HFunction 0) initial =
    (Throw (JSError "Error"
              "App Message not supported with Rocky.js apps. See Pebble.postMessage()"),
     initial)
  ∧ _isPostMessageEvent "appmessage" = false
  ∧ trace (exec (Pebble_addEventListener "appmessage" (HFunction 0)) initial) = [].
Proof. by_evaluation. Qed.

Lemma C9_witness :
  Pebble_addEventListener "showConfiguration" (HFunction 0) initial =
    (Normal tt,
     upd_trace (λ t, t ++ [native_addEventListener "showConfiguration" (HFunction 0)])
       initial).
Proof.
  apply (C9_other_events_are_forwarded "showConfiguration" (HFunction 0) initial).
  - apply (bool_decide_unpack _). vm_compute. exact I.
  - discriminate.
Defined.

End C9_scenario.

(** ** C10 *)

(** C10: a Chunk of four bytes or fewer received in [SessionOpen] is
    rejected by [_unpackChunk] (it logs and returns [undefined]), the chunk
    handler returns [false] on it, and Control enters
    [ControlStateAwaitingResetCompleteLocalInitiated]: one ResetRequest joins
    [controlQueue], the parameters are reset, and the listeners of
    [postmessagedisconnected] are called. *)
Theorem C10_short_chunk_resets_session `{Runtime}
    (w : World) (payload : Payload) (bytes : list byte) :
  state (_control w) = ControlStateSessionOpen →
  payload !! ControlKeyChunk = Some (InBytes bytes) →
  (length bytes ≤ 4)%nat →
  let logged :=
    upd_trace (λ t, t ++ [console_error "Chunk data too short to be valid!"]) w in
  let queued := sendControl_post ResetRequestMessage logged in
  _unpackChunk (InBytes bytes) w = (Normal None, logged)
  ∧ handleChunkReceived None logged = (Normal false, logged)
  ∧ ∃ ev,
      handle payload w =
        (Normal tt,
         {| _out := _out queued;
            _in := _in w;
            _control := {| state := ControlStateAwaitingResetCompleteLocalInitiated;
                           protocol := no_protocol |};
            EVENTS := ev;
            trace := trace queued ++ notification "postmessagedisconnected" None w |})
      ∧ controlQueue (_out queued) = controlQueue (_out w) ++ [ResetRequestMessage]
      ∧ ∀ k, handlers <$> ev !! k = handlers <$> EVENTS w !! k.
Proof.
  intros Hopen Hchunk Hlen logged queued.
  assert (_unpackChunk (InBytes bytes) w = (Normal None, logged)) as Hunpack.
  { unfold _unpackChunk. rewrite bool_decide_true by done. reflexivity. }
  split; [exact Hunpack|]. split; [reflexivity|].
  destruct (enter_LI_from_open logged Hopen) as (ev & Henter & Hev).
  exists ev.
  split; [|split; [exact (sendControl_post_queue ResetRequestMessage logged)|exact Hev]].
  unfold handle. cbn. rewrite Hopen. unfold ControlHandlers.
  rewrite Hchunk. cbn. rewrite Hunpack. cbn.
  unfold handleChunkReceived at 1. cbn.
  rewrite bool_decide_true by done. exact Henter.
Qed.

Section C10_scenario.
#[local] Existing Instance Host.runtime.

Lemma C10_witness :
  state (_control (exec (handle short_chunk) session_open_world)) =
    ControlStateAwaitingResetCompleteLocalInitiated
  ∧ controlQueue (_out (exec (handle short_chunk) session_open_world)) =
      [ResetRequestMessage].
Proof.
  destruct (C10_short_chunk_resets_session session_open_world short_chunk [x01; x02]
              ltac:(vm_compute; reflexivity) ltac:(vm_compute; reflexivity)
              ltac:(cbn; lia)) as (_ & _ & ev & Hhandle & _).
  unfold exec. rewrite Hhandle. split; vm_compute; reflexivity.
Defined.

End C10_scenario.

(** * More of the module *)

(** ** The listener registry *)

Section RegistryMore.

Lemma filter_other_id (hs : list nat) (id : nat) :
  id ∉ hs → filter (λ h, h ≠ id) hs = hs.
Proof.
  induction hs as [|h hs IH]; intros Hid; [done|].
  apply not_elem_of_cons in Hid as [Hne Hid].
  rewrite filter_cons_True by done. by rewrite IH.
Qed.

Lemma find_first (hs : list nat) (id : nat) :
  id ∈ hs →
  ∃ a b, hs = a ++ id :: b ∧ (id ∉ a)
         ∧ list_find (λ h, h = id) hs = Some (length a, id).
Proof.
  induction hs as [|h hs IH]; intros Hid; [by apply elem_of_nil in Hid|].
  destruct (decide (h = id)) as [->|Hne].
  - exists [], hs. split; [done|]. split; [apply not_elem_of_nil|].
    cbn. by rewrite decide_True.
  - apply elem_of_cons in Hid as [Heq|Hid]; [done|].
    destruct (IH Hid) as (a & b & -> & Ha & Hfind).
    exists (h :: a), b. split; [done|]. split.
    + apply not_elem_of_cons. by split.
    + cbn. rewrite decide_False by done. by rewrite Hfind.
Qed.

Lemma find_absent (hs : list nat) (id : nat) :
  id ∉ hs → list_find (λ h, h = id) hs = None.
Proof.
  intros Hid. apply list_find_None, Forall_forall. by intros h Hh ->.
Qed.

Lemma in_drop (hs : list nat) (n id : nat) : id ∈ drop n hs → id ∈ hs.
Proof. intros Hd. rewrite <- (take_drop n hs). apply elem_of_app. by right. Qed.

Lemma in_take (hs : list nat) (n id : nat) : id ∈ take n hs → id ∈ hs.
Proof. intros Hd. rewrite <- (take_drop n hs). apply elem_of_app. by left. Qed.

End RegistryMore.

(** X2: removing a function from a list of handlers whose iterator is under
    way keeps the cursor at its place among the others: what is left to
    visit is what was left, without the removed function, and what has been
    visited is what had been, without it.  (No function is registered
    twice.) *)
Theorem remove_keeps_the_cursor_in_place (l : HandlersList) (id : nat) :
  NoDup (handlers l) →
  let l' := HandlersList.remove (HFunction id) l in
  drop (pos l') (handlers l') = filter (λ h, h ≠ id) (drop (pos l) (handlers l))
  ∧ take (pos l') (handlers l') = filter (λ h, h ≠ id) (take (pos l) (handlers l)).
Proof.
  destruct l as [p hs]. cbn [handlers pos]. intros Hnodup.
  unfold HandlersList.remove, HandlersList.indexOf. cbn [handlers pos].
  destruct (decide (id ∈ hs)) as [Hin|Hout].
  - destruct (find_first hs id Hin) as (a & b & -> & Ha & ->).
    cbn [fmap option_fmap option_map fst handlers pos].
    apply NoDup_app in Hnodup as (_ & _ & Hb).
    apply NoDup_cons in Hb as [Hb _].
    rewrite delete_middle.
    case_bool_decide as Hlt; cbn [handlers pos].
    + rewrite Nat.max_0_r.
      rewrite !drop_app_ge, !take_app_ge by (cbn; lia).
      replace (p - length a)%nat with (S (p - 1 - length a)) by lia. cbn.
      rewrite filter_app, filter_cons_False by naive_solver.
      rewrite (filter_other_id a) by done.
      split.
      * symmetry. apply filter_other_id. intros Hd. apply Hb.
        by eapply in_drop.
      * f_equal. symmetry. apply filter_other_id. intros Hd. apply Hb.
        by eapply in_take.
    + rewrite !drop_app_le, !take_app_le by lia.
      rewrite filter_app, filter_cons_False by naive_solver.
      rewrite (filter_other_id b) by done.
      split.
      * f_equal. symmetry. apply filter_other_id. intros Hd. apply Ha.
        by eapply in_drop.
      * symmetry. apply filter_other_id. intros Hd. apply Ha.
        by eapply in_take.
  - rewrite find_absent by done. cbn. split.
    + symmetry. apply filter_other_id. intros Hd. apply Hout.
      by eapply in_drop.
    + symmetry. apply filter_other_id. intros Hd. apply Hout.
      by eapply in_take.
Qed.

Lemma remove_keeps_the_cursor_in_place_witness :
  drop (pos (HandlersList.remove (HFunction 7) {| pos := 2; handlers := [7; 8; 9]%nat |}))
       (handlers (HandlersList.remove (HFunction 7) {| pos := 2; handlers := [7; 8; 9]%nat |}))
  = [9]%nat.
Proof.
  refine (proj1 (remove_keeps_the_cursor_in_place
                   {| pos := 2; handlers := [7; 8; 9]%nat |} 7 _)).
  cbn. refine (bool_decide_unpack _ _). vm_compute. exact I.
Defined.

Section RoundTrip.
Context `{Runtime}.

Lemma find_last_added (hs : list nat) (id : nat) :
  id ∉ hs → list_find (λ h, h = id) (hs ++ [id]) = Some (length hs, id).
Proof.
  intros Hid. destruct (find_first (hs ++ [id]) id) as (a & b & Heq & Ha & ->).
  { apply elem_of_app. right. apply list_elem_of_here. }
  assert (a = hs) as ->; [|done].
  clear -Hid Ha Heq. revert a Ha Heq.
  induction hs as [|h hs IH]; intros [|x a] Ha Heq; cbn in *.
  - done.
  - injection Heq as <- Heq. exfalso. apply Ha. apply list_elem_of_here.
  - injection Heq as -> Heq. exfalso. apply Hid. apply list_elem_of_here.
  - injection Heq as -> Heq. f_equal. apply IH; [| |done].
    + intros Hx. apply Hid. by apply list_elem_of_further.
    + intros Hx. apply Ha. by apply list_elem_of_further.
Qed.

(** X3: for an event of the transport, registering a function that is not
    yet registered for it and removing it again leaves the listeners of
    every event as they were, and touches neither the Sender, the Receiver
    nor the session. *)
Theorem on_then_off_restores_listeners (event_name : string) (id : nat) (w : World) :
  _isPostMessageEvent event_name = true →
  id ∉ listeners w event_name →
  let w' := run [AddEventListener event_name (HFunction id);
                 RemoveEventListener event_name (HFunction id)] w in
  (∀ name, listeners w' name = listeners w name)
  ∧ _out w' = _out w ∧ _in w' = _in w ∧ _control w' = _control w.
Proof.
  intros Hname Hid. cbn. unfold deliver, callback.
  unfold Pebble_addEventListener, Pebble_removeEventListener. rewrite Hname.
  unfold on, off. cbn.
  assert (∀ t name,
    listeners
      {| _out := _out w; _in := _in w; _control := _control w;
         EVENTS := <[event_name :=
                      HandlersList.remove (HFunction id)
                        (HandlersList.add id
                           (default createHandlersList (EVENTS w !! event_name)))]>
                     (<[event_name :=
                         HandlersList.add id
                           (default createHandlersList (EVENTS w !! event_name))]>
                        (EVENTS w));
         trace := t |} name = listeners w name) as Hsame.
  { intros t name. unfold listeners in *. cbn.
    destruct (decide (event_name = name)) as [<-|Hne].
    - rewrite lookup_insert_eq. cbn.
      unfold HandlersList.remove, HandlersList.add, HandlersList.indexOf. cbn.
      destruct (EVENTS w !! event_name) as [l|]; cbn in *.
      + rewrite find_last_added by done. cbn.
        rewrite (delete_middle (handlers l) [] id). apply app_nil_r.
      + rewrite decide_True by done. done.
    - by rewrite !lookup_insert_ne. }
  match goal with
  | |- context [if ?b then _ else _] => destruct b
  end; cbn; rewrite lookup_insert_eq; cbn; (split; [apply Hsame|done]).
Qed.

End RoundTrip.

Section RoundTrip_scenario.
#[local] Existing Instance Host.runtime.

Lemma on_then_off_restores_listeners_witness :
  let w' := run [AddEventListener "message" (HFunction 1);
                 RemoveEventListener "message" (HFunction 1)] initial in
  (∀ name, listeners w' name = listeners initial name)
  ∧ _out w' = _out initial ∧ _in w' = _in initial ∧ _control w' = _control initial.
Proof.
  apply (on_then_off_restores_listeners "message" 1 initial).
  - vm_compute. reflexivity.
  - vm_compute. apply not_elem_of_nil.
Defined.

End RoundTrip_scenario.

(** ** The chunk header *)


Section HeaderRoundTrip.
Context `{Runtime}.

Lemma unpackChunk_header
    (n : Z) (isFirst : bool) (payload wire : list byte) (w : World) :
  0 ≤ n < 2 ^ 31 →
  payload ≠ [] →
  byte_to_Z <$> wire = chunk_header n isFirst ++ (byte_to_Z <$> payload) →
  _unpackChunk (InBytes wire) w =
    (Normal (Some (if isFirst then FirstChunk n (Bytes payload)
                   else NextChunk n (Bytes payload))), w).
Proof.
  intros Hn Hpayload Hwire. rewrite chunk_header_bytes in Hwire by done.
  destruct wire as [|w0 [|w1 [|w2 [|w3 rest]]]]; try done.
  cbn in Hwire. injection Hwire as H0 H1 H2 H3 Hrest.
  apply byte_to_Z_fmap_inj in Hrest as ->.
  assert (0 ≤ n / 2 ^ 24 < 128) as Hhi
    by (split; [apply Z.div_pos|apply Z.div_lt_upper_bound]; lia).
  destruct (flag_bits _ Hhi) as (_ & _ & _ & Hset & Hclear & Hmask & Hmask0).
  unfold _unpackChunk.
  rewrite bool_decide_false by (destruct payload; [done|cbn; lia]).
  cbn [elem lookup list_lookup from_option mret M_ret drop].
  unfold operand. cbn [ToNumber].
  rewrite drop_0, H0, H1, H2, H3, js_shl_1_7.
  assert (js_and (js_not 128) (n / 2 ^ 24 + (if isFirst then 128 else 0)) = n / 2 ^ 24)
    as ->.
  { unfold js_and, js_not. rewrite (ToInt32_small 128) by lia.
    change (Z.lnot 128) with (-129). rewrite (ToInt32_small (-129)) by lia.
    destruct isFirst; [rewrite ToInt32_small by lia; done|].
    rewrite Z.add_0_r, ToInt32_small by lia. done. }
  rewrite num31bits_sum by (try apply Z.mod_pos_bound; lia).
  assert (n / 2 ^ 24 * 2 ^ 24 + (n / 2 ^ 16) mod 256 * 2 ^ 16
          + (n / 2 ^ 8) mod 256 * 2 ^ 8 + n mod 256 = n) as ->.
  { change (2 ^ 24) with (256 * 256 * 256). change (2 ^ 16) with (256 * 256).
    change (2 ^ 8) with 256.
    rewrite <- !Z.div_div by lia.
    pose proof (Z.div_mod n 256). pose proof (Z.div_mod (n / 256) 256).
    pose proof (Z.div_mod (n / 256 / 256) 256). lia. }
  assert (js_and (n / 2 ^ 24 + (if isFirst then 128 else 0)) 128
          = if isFirst then 128 else 0) as ->.
  { unfold js_and. rewrite (ToInt32_small 128) by lia.
    destruct isFirst; [rewrite ToInt32_small by lia; done|].
    rewrite Z.add_0_r, ToInt32_small by lia. done. }
  destruct isFirst; [rewrite bool_decide_true by done|rewrite bool_decide_false by done];
    done.
Qed.

(** X4: the receiver reads a chunk header as the Sender writes it.  For a
    number below 2^31 and a payload that is not empty, [_unpackChunk] on the
    bytes of [chunk_header n isFirst] followed by the payload returns the
    same number, the same flag and the same payload, and logs nothing. *)
Theorem unpackChunk_reads_chunk_header
    (n : Z) (isFirst : bool) (payload wire : list byte) (w : World) :
  0 ≤ n < 2 ^ 31 →
  payload ≠ [] →
  byte_to_Z <$> wire = chunk_header n isFirst ++ (byte_to_Z <$> payload) →
  _unpackChunk (InBytes wire) w =
    (Normal (Some (if isFirst then FirstChunk n (Bytes payload)
                   else NextChunk n (Bytes payload))), w).
Proof. apply unpackChunk_header. Qed.

End HeaderRoundTrip.

Section HeaderRoundTrip_scenario.
#[local] Existing Instance Host.runtime.

Lemma unpackChunk_reads_chunk_header_witness :
  _unpackChunk (InBytes [xe8; x03; x00; x80; x7b; x7d]) initial =
    (Normal (Some (FirstChunk 1000 (Bytes [x7b; x7d]))), initial).
Proof.
  apply (unpackChunk_reads_chunk_header 1000 true [x7b; x7d]
           [xe8; x03; x00; x80; x7b; x7d] initial).
  - lia.
  - discriminate.
  - vm_compute. reflexivity.
Defined.

End HeaderRoundTrip_scenario.

(** ** Reassembly *)

Section Reassembly.
Context `{Runtime}.










End Reassembly.

Section ReassemblyTheorem.
Context `{Runtime}.



End ReassemblyTheorem.

Section Reassembly_scenario.
#[local] Existing Instance Host.runtime.


End Reassembly_scenario.

(** ** An object on its way out *)

Section Cut.

Lemma cut__concat (fuel size : nat) (bytes : list byte) :
  (0 < size)%nat → (length bytes ≤ fuel)%nat → concat (cut_ fuel size bytes) = bytes.
Proof.
  intros Hsize. revert bytes. induction fuel as [|fuel IH]; intros bytes Hlen.
  - by destruct bytes; [|cbn in Hlen; lia].
  - destruct bytes as [|b bytes]; [done|].
    cbn [cut_ concat]. rewrite IH; [apply take_drop|].
    rewrite length_drop. cbn in *. lia.
Qed.

Lemma cut__pieces (fuel size : nat) (bytes : list byte) :
  (0 < size)%nat →
  Forall (λ d, d ≠ [] ∧ (length d ≤ size)%nat) (cut_ fuel size bytes).
Proof.
  intros Hsize. revert bytes. induction fuel as [|fuel IH]; intros bytes; [constructor|].
  destruct bytes as [|b bytes]; [constructor|].
  cbn [cut_]. constructor; [|apply IH]. split.
  - destruct size; [lia|done].
  - rewrite length_take. lia.
Qed.

Lemma cut__more_fuel (fuel fuel' size : nat) (bytes : list byte) :
  (0 < size)%nat → (length bytes ≤ fuel)%nat → (length bytes ≤ fuel')%nat →
  cut_ fuel size bytes = cut_ fuel' size bytes.
Proof.
  intros Hsize. revert fuel' bytes.
  induction fuel as [|fuel IH]; intros fuel' bytes Hlen Hlen'.
  - destruct bytes; [by destruct fuel'|cbn in Hlen; lia].
  - destruct bytes as [|b bytes]; [by destruct fuel'|].
    destruct fuel' as [|fuel']; [cbn in Hlen'; lia|].
    cbn [cut_]. f_equal. apply IH; rewrite length_drop; cbn in *; lia.
Qed.

End Cut.

Section Transfer.
Context `{Runtime}.

(** The chunk at [offset] of the object at the head of the queue. *)
Lemma trySendNextChunk__open (ms : M unit) (w : World) (o : DataObject)
    (q : list DataObject) :
  controlQueue (_out w) = [] → objectQueue (_out w) = o :: q →
  state (_control w) = ControlStateSessionOpen →
  0 ≤ _offsetBytes (_out w) → 0 < tx_chunk_size (protocol (_control w)) →
  let offset := _offsetBytes (_out w) in
  let tx := tx_chunk_size (protocol (_control w)) in
  let piece := take (Z.to_nat tx) (drop (Z.to_nat offset) (data o)) in
  let chunk := if bool_decide (offset = 0)
               then FirstChunk (Z.of_nat (length (data o))) (Bytes piece)
               else NextChunk offset (Bytes piece) in
  _trySendNextChunk_ ms w =
    (Normal tt,
     upd_trace (λ t, t ++ [sendAppMessage (Some (chunk_message chunk)) MsgObject])
       (upd_out (set_chunkPayloadSize (Z.min tx (Z.of_nat (length (data o)) - offset))) w)).
Proof.
  destruct w as [[cq oq cur fc off size] r [st p] ev t]. cbn.
  intros -> -> -> Hoff Htx.
  unfold _trySendNextChunk_, _getNextMessageType. mrun.
  rewrite js_slice_piece by lia.
  unfold chunk_message, chunk_array.
  by destruct (bool_decide (off = 0)).
Qed.


(** An acknowledged chunk that is not the last one is followed by the next
    one; the last one ends the transfer and leaves the Sender at rest. *)
Lemma chunkSuccess_more (w : World) (o : DataObject) (q : list DataObject) :
  controlQueue (_out w) = [] → objectQueue (_out w) = o :: q →
  _offsetBytes (_out w) + _chunkPayloadSize (_out w) ≠ Z.of_nat (length (data o)) →
  _chunkSuccess w =
    _trySendNextChunk
      (upd_out (set_offsetBytes (_offsetBytes (_out w) + _chunkPayloadSize (_out w))) w).
Proof.
  destruct w as [[cq oq cur fc off size] r c ev t]. cbn. intros -> -> Hmore.
  unfold _chunkSuccess. by mrun.
Qed.

Lemma chunkSuccess_done (w : World) (o : DataObject) :
  controlQueue (_out w) = [] → objectQueue (_out w) = [o] →
  _offsetBytes (_out w) + _chunkPayloadSize (_out w) = Z.of_nat (length (data o)) →
  _chunkSuccess w = (Normal tt, upd_out (λ _, _out initial) w).
Proof.
  destruct w as [[cq oq cur fc off size] r c ev t]. cbn. intros -> -> Hdone.
  unfold _chunkSuccess. mrun. unfold _completeObject, _resetCurrent. mrun.
  unfold _sendNext, _getNextMessageType. by mrun.
Qed.

Lemma cut__nil (fuel size : nat) : cut_ fuel size [] = [].
Proof. by destruct fuel. Qed.

Lemma acknowledged_chunks (fuel : nat) :
  ∀ (offset count : Z) (o : DataObject) (r : ChunkReceiver) (p : Protocol)
    (ev : gmap string HandlersList) (t : list Effect),
  let tx := tx_chunk_size p in
  let len := Z.of_nat (length (data o)) in
  0 < tx → 0 ≤ offset < len → len - offset ≤ Z.of_nat fuel →
  let pieces := cut_ fuel (Z.to_nat tx) (drop (Z.to_nat offset) (data o)) in
  run (replicate (length pieces) (SendSucceeded MsgObject))
    {| _out := {| controlQueue := []; objectQueue := [o];
                  _currentMessageType := Some MsgObject; _failureCount := count;
                  _offsetBytes := offset;
                  _chunkPayloadSize := Z.min tx (len - offset) |};
       _in := r;
       _control := {| state := ControlStateSessionOpen; protocol := p |};
       EVENTS := ev; trace := t |}
  = {| _out := _out initial; _in := r;
       _control := {| state := ControlStateSessionOpen; protocol := p |};
       EVENTS := ev;
       trace := t ++ sends (chunks_from (offset + Z.min tx (len - offset)) (tail pieces)) |}.
Proof.
  induction fuel as [|fuel IH]; intros offset count o r p ev t tx len Htx Hoff Hfuel;
    [lia|].
  cbn zeta.
  destruct (drop (Z.to_nat offset) (data o)) as [|b rest] eqn:Hdrop.
  { apply (f_equal length) in Hdrop. rewrite length_drop in Hdrop. cbn in Hdrop. lia. }
  cbn [cut_ length replicate run foldl tail]. rewrite <- Hdrop. clear b rest Hdrop.
  unfold deliver at 2. unfold callback.
  destruct (decide (tx < len - offset)) as [Hmore|Hlast].
  - rewrite chunkSuccess_more with (o := o) (q := []); [|done|done|cbn; lia].
    unfold _trySendNextChunk.
    rewrite trySendNextChunk__open with (o := o) (q := []); [|done|done|done|cbn; lia|done].
    cbn. fold tx len. rewrite (Z.min_l tx (len - offset)) by lia.
    rewrite bool_decide_false by lia.
    rewrite drop_drop.
    replace (Z.to_nat offset + Z.to_nat tx)%nat with (Z.to_nat (offset + tx)) by lia.
    specialize (IH (offset + tx) count o r p ev
                  (t ++ [sendAppMessage
                           (Some (chunk_message
                              (NextChunk (offset + tx)
                                 (Bytes (take (Z.to_nat tx)
                                           (drop (Z.to_nat (offset + tx)) (data o)))))))
                           MsgObject])
                  Htx ltac:(lia) ltac:(lia)).
    cbn zeta in IH. unfold run in IH. unfold set_chunkPayloadSize, set_offsetBytes. cbn.
    fold tx len in IH |- *. rewrite IH. f_equal. rewrite <- app_assoc. f_equal.
    destruct (drop (Z.to_nat (offset + tx)) (data o)) as [|b rest] eqn:Hdrop.
    { apply (f_equal length) in Hdrop. rewrite length_drop in Hdrop. cbn in Hdrop. lia. }
    destruct fuel as [|fuel]; [lia|].
    cbn [cut_ tail chunks_from sends fmap list_fmap option_fmap option_map app].
    rewrite <- Hdrop. do 3 f_equal.
    rewrite length_take, length_drop. lia.
  - rewrite chunkSuccess_done with (o := o); [|done|done|cbn; lia].
    rewrite drop_ge by (rewrite length_drop; lia).
    rewrite cut__nil. cbn. by rewrite app_nil_r.
Qed.

End Transfer.

Section TransferTheorem.
Context `{Runtime}.

Lemma transfer_run (o : jsval) (s : string) (r : ChunkReceiver) (p : Protocol)
    (ev : gmap string HandlersList) (t : list Effect) :
  0 < tx_chunk_size p →
  JSON_stringify o = StringifyText s →
  let bytes := utf8_encode s ++ [x00] in
  let size := Z.to_nat (tx_chunk_size p) in
  run (PostMessage o :: replicate (length (cut size bytes)) (SendSucceeded MsgObject))
    {| _out := _out initial; _in := r;
       _control := {| state := ControlStateSessionOpen; protocol := p |};
       EVENTS := ev; trace := t |}
  = {| _out := _out initial; _in := r;
       _control := {| state := ControlStateSessionOpen; protocol := p |};
       EVENTS := ev; trace := t ++ sends (chunks_of (cut size bytes)) |}.
Proof.
  intros Htx Hs bytes size.
  assert (concat (cut size bytes) = bytes) as Hconcat
    by (apply cut__concat; [lia|done]).
  assert (bytes ≠ []) as Hbytes by (unfold bytes; by destruct (utf8_encode s)).
  cbn [run foldl]. unfold deliver at 2. unfold callback, Pebble_postMessage, sendObject,
    _createDataObject. rewrite Hs. cbn.
  erewrite sendNext_object; [|done|done|done|done].
  cbn. rewrite Z.sub_0_r. fold bytes.
  pose proof (js_slice_piece bytes 0 (tx_chunk_size p) ltac:(done) ltac:(lia)) as Hslice.
  rewrite Z.sub_0_r in Hslice. cbn [Z.add] in Hslice. rewrite Hslice. clear Hslice.
  rewrite (bool_decide_true (0 = 0)) by done.
  change (drop (Z.to_nat 0) bytes) with bytes. fold size.
  pose proof (acknowledged_chunks (length bytes) 0 0
                {| obj := o; data := bytes; json := s |} r p ev
                (t ++ [sendAppMessage
                         (Some (chunk_message
                            (FirstChunk (Z.of_nat (length bytes))
                               (Bytes (take size bytes)))))
                         MsgObject])
                Htx) as Hacks.
  cbn zeta in Hacks. cbn [data] in Hacks. rewrite Z.sub_0_r in Hacks.
  unfold run in Hacks. cbn [Z.add] in Hacks.
  change (drop (Z.to_nat 0) bytes) with bytes in Hacks. fold size in Hacks.
  unfold set_chunkPayloadSize, set_currentMessageType, set_objectQueue. cbn.
  unfold chunk_message, chunk_array in Hacks. cbn [data_codes] in Hacks.
  fold (cut size bytes) in Hacks.
  rewrite Hacks; cycle 1.
  { destruct bytes; [done|cbn; lia]. }
  { lia. }
  f_equal. rewrite <- app_assoc. f_equal.
  assert (cut size bytes = take size bytes :: tail (cut size bytes)) as Hcut.
  { unfold cut. by destruct bytes. }
  rewrite Hcut at 2.
  unfold chunks_of, sends. cbn [fmap list_fmap option_fmap option_map app].
  rewrite <- Hcut, Hconcat. unfold chunk_message, chunk_array. cbn [data_codes].
  do 4 f_equal. rewrite length_take. lia.
Qed.

(** X6: an object posted while the session is open, the Sender at rest and
    the chunk size of the session positive, leaves in chunks.  With every
    chunk acknowledged, the Sender hands to the transport, in order, the
    chunks of the text and its terminator cut into pieces of the chunk size:
    the first announces the total size, each of the others its offset.  The
    pieces are not empty, none is longer than the chunk size, and together
    they are the text and its terminator.  After the last acknowledgement
    the Sender is at rest again; nothing else was logged, scheduled or
    dispatched. *)
Theorem posted_object_leaves_in_chunks (o : jsval) (s : string) (w : World) :
  _out w = _out initial →
  state (_control w) = ControlStateSessionOpen →
  0 < tx_chunk_size (protocol (_control w)) →
  JSON_stringify o = StringifyText s →
  let bytes := utf8_encode s ++ [x00] in
  let size := Z.to_nat (tx_chunk_size (protocol (_control w))) in
  let pieces := cut size bytes in
  let w' := run (PostMessage o :: replicate (length pieces) (SendSucceeded MsgObject)) w in
  trace w' = trace w ++ sends (chunks_of pieces)
  ∧ concat pieces = bytes
  ∧ Forall (λ d, d ≠ [] ∧ (length d ≤ size)%nat) pieces
  ∧ _out w' = _out initial ∧ _in w' = _in w ∧ _control w' = _control w
  ∧ EVENTS w' = EVENTS w.
Proof.
  destruct w as [out r [st p] ev t]. cbn [_out _in _control EVENTS trace state protocol].
  intros -> -> Htx Hs. cbv zeta.
  rewrite (transfer_run o s r p ev t Htx Hs). cbn [_out _in _control EVENTS trace].
  split; [done|]. split; [apply cut__concat; [lia|done]|].
  split; [apply cut__pieces; lia|done].
Qed.

End TransferTheorem.

Section Transfer_scenario.
#[local] Existing Instance Host.runtime.

Lemma posted_object_leaves_in_chunks_witness :
  let w' := run [PostMessage small_object; SendSucceeded MsgObject] session_open_world in
  trace w' =
    trace session_open_world
    ++ sends (chunks_of [Host.encode (default EmptyString (Host.stringify small_object))
                         ++ [x00]])
  ∧ _out w' = _out initial.
Proof.
  pose proof (posted_object_leaves_in_chunks small_object
                (default EmptyString (Host.stringify small_object)) session_open_world)
    as Hchunks.
  destruct Hchunks as (Htrace & _ & _ & Hout & _).
  - vm_compute. reflexivity.
  - vm_compute. reflexivity.
  - vm_compute. reflexivity.
  - vm_compute. reflexivity.
  - split; [exact Htrace|exact Hout].
Defined.

End Transfer_scenario.

(** ** From the Sender to the Receiver *)

Section RoundTripChunks.
Context `{Runtime}.





End RoundTripChunks.

Section RoundTripTheorem.
Context `{Runtime}.





End RoundTripTheorem.

Section RoundTrip_all_scenario.
#[local] Existing Instance Host.runtime.


End RoundTrip_all_scenario.
